(** * Ear-trainer game: audio sequencing and the round state machine

    A shallow embedding of [utils/audio.ts], [components/GameScreen.tsx],
    [components/Piano.tsx] ([handleKeyPress]) and the two callbacks of
    [App.tsx] that the game screen receives.

    The browser is modelled as one event loop: a clock in milliseconds and
    a queue of pending [setTimeout] callbacks.  Timers are ideal (a callback
    runs at the instant it is due).  A closure is represented by a
    constructor of [Callback] that carries the values the closure captured;
    the local variables of a [playScale] / [playTriad] activation ([notes],
    [index], [timeoutId]) live in a store of [Player] records addressed by
    a handle.  React state is read from the
    latest render, and state setters of an unmounted component do nothing. *)

From stdpp Require Import base list strings relations.
From Stdlib Require Import ZArith QArith Qround Lia.

Set Default Proof Using "Type".

Close Scope Q_scope.

(** ** types.ts *)

Inductive Note := C | D | E | F | G | A | B.

#[global] Instance Note_eq_dec : EqDecision Note.
Proof. solve_decision. Defined.

Inductive GameState := welcome | playingGame | scores | highScores.

#[global] Instance GameState_eq_dec : EqDecision GameState.
Proof. solve_decision. Defined.

Module Status.
Inductive t := initial | playing | guessing | feedback.
End Status.

#[global] Instance Status_eq_dec : EqDecision Status.t.
Proof. solve_decision. Defined.

Inductive Feedback := correct | incorrect.

(** The texts handed to [setMessage], by their role. *)
Inductive Message :=
| msgEmpty
| msgListeningTriad
| msgListeningScale
| msgWhichNote
| msgCorrect (target : option Note)
| msgIncorrect (target : option Note) (guessed : Note)
| msgReplaying
| msgGetReady.

(** ** utils/audio.ts: the tone synthesizer *)

Module Audio.

Local Open Scope Q_scope.

Definition noteFrequencies (note : Note) : Q :=
  match note with
  | C => 261.63
  | D => 293.66
  | E => 329.63
  | F => 349.23
  | G => 392.00
  | A => 440.00
  | B => 493.88
  end.

Record Harmonic := { freq : Q; gain : Q }.

Definition harmonics (frequency : Q) : list Harmonic :=
  [ {| freq := frequency;     gain := 0.8 |};
    {| freq := frequency * 2; gain := 0.3 |};
    {| freq := frequency * 3; gain := 0.15 |};
    {| freq := frequency * 4; gain := 0.08 |};
    {| freq := frequency * 5; gain := 0.04 |} ].

Inductive OscillatorType := sine | square | sawtooth | triangle.

(** One oscillator with the gain node it is connected through. *)
Record OscillatorNode :=
  { osc_type : OscillatorType; osc_frequency : Q; osc_gain : Q }.

(** The calls made on the master gain's [AudioParam], in program order. *)
Inductive AutomationEvent :=
| setValueAtTime (value time : Q)
| linearRampToValueAtTime (value time : Q)
| exponentialRampToValueAtTime (value time : Q).

Record PianoTone :=
  { oscillators : list OscillatorNode; envelope : list AutomationEvent }.

(** [createPianoTone], with [audioContext.currentTime] as [now]. *)
Definition createPianoTone (now frequency duration : Q) : PianoTone :=
  {| oscillators :=
       map (fun h => {| osc_type := triangle;
                        osc_frequency := freq h;
                        osc_gain := gain h |})
           (harmonics frequency);
     envelope :=
       [ setValueAtTime 0 now;
         linearRampToValueAtTime 0.4 (now + 0.01);
         exponentialRampToValueAtTime 0.2 (now + 0.1);
         exponentialRampToValueAtTime 0.05 (now + duration * 0.7);
         linearRampToValueAtTime 0 (now + duration) ] |}.

(** A tone connected to the destination: the sources started for it
    (by identity) and the interval [osc.start] / [osc.stop] were given. *)
Record Sounding :=
  { pitch : Note; tone : PianoTone; sources : list nat;
    startAt : Q; stopAt : Q }.

Record AudioContext :=
  { timeOrigin : Z; nextNodeId : nat; destination : list Sounding }.

(** [audioContext.currentTime], in seconds, at event-loop time [clock]
    (milliseconds). *)
Definition currentTime (ctx : AudioContext) (clock : Z) : Q :=
  inject_Z (clock - timeOrigin ctx) / 1000.

End Audio.

(** ** The event loop and the closures it runs *)

(** What [onComplete] does, for the two kinds of caller in GameScreen. *)
Inductive OnComplete :=
| SelectRandomNote (notes : list Note)   (* () => selectRandomNote(notes) *)
| AskAgain.                              (* () => setMessage(which note?) *)

Inductive Callback :=
| CbPlayNextNote (h : nat) (onComplete : OnComplete)
| CbOnComplete (h : nat) (onComplete : OnComplete)
| CbFeedbackDone (isCorrect : bool) (round score : nat)
| CbInitializeGame
| CbOnEnded (osc : nat)
| CbReleaseKey (note : Note).

Record Timer := { tid : nat; due : Z; callback : Callback }.

Record EventLoop := { now : Z; timers : list Timer; nextTimerId : nat }.

(** The local variables of one [playScale] / [playTriad] activation. *)
Record Player := { notes : list Note; index : nat; timeoutId : option nat }.

(** Observations kept for stating properties; the program never reads them. *)
Inductive Obs :=
| SeqNote (h i : nat) (note : Note) (duration : Q) (t : Z)
| SeqDone (h : nat) (t : Z)
| Primed
| Guessed (isCorrect : bool)
| EndGameCalled (score total : nat)
| ExitGameCalled.

Record AudioContextRef :=
  { audioContext : option Audio.AudioContext; gainNode : option Q }.

Record GameScreen :=
  { score : nat;
    currentNote : option Note;
    status : Status.t;
    feedback : option Feedback;
    round : nat;
    message : Message;
    availableNotes : list Note;
    showExitConfirm : bool;
    audioContextRef : AudioContextRef;
    audioCleanupRef : option nat;
    mountTimer : nat }.

Record Piano :=
  { pressedKeys : list Note; pressTimeoutRef : Note -> option nat }.

Record App := { gameState : GameState; appScore : nat; totalQuestions : nat }.

Record World :=
  { loop : EventLoop;
    activeAudioSources : list nat;
    players : list Player;
    game : GameScreen;
    piano : Piano;
    app : App;
    trace : list Obs }.

(** *** Field updates *)

Definition upd_loop (f : EventLoop -> EventLoop) (w : World) : World :=
  {| loop := f (loop w); activeAudioSources := activeAudioSources w;
     players := players w; game := game w; piano := piano w; app := app w;
     trace := trace w |}.

Definition set_sources (l : list nat) (w : World) : World :=
  {| loop := loop w; activeAudioSources := l;
     players := players w; game := game w; piano := piano w; app := app w;
     trace := trace w |}.

Definition set_players (l : list Player) (w : World) : World :=
  {| loop := loop w; activeAudioSources := activeAudioSources w;
     players := l; game := game w; piano := piano w; app := app w;
     trace := trace w |}.

Definition upd_game (f : GameScreen -> GameScreen) (w : World) : World :=
  {| loop := loop w; activeAudioSources := activeAudioSources w;
     players := players w; game := f (game w); piano := piano w; app := app w;
     trace := trace w |}.

Definition upd_piano (f : Piano -> Piano) (w : World) : World :=
  {| loop := loop w; activeAudioSources := activeAudioSources w;
     players := players w; game := game w; piano := f (piano w); app := app w;
     trace := trace w |}.

Definition upd_app (f : App -> App) (w : World) : World :=
  {| loop := loop w; activeAudioSources := activeAudioSources w;
     players := players w; game := game w; piano := piano w; app := f (app w);
     trace := trace w |}.

Definition observe (o : Obs) (w : World) : World :=
  {| loop := loop w; activeAudioSources := activeAudioSources w;
     players := players w; game := game w; piano := piano w; app := app w;
     trace := o :: trace w |}.

(** The game screen is rendered exactly while [gameState === 'playing']. *)
Definition isPlaying (s : GameState) : bool :=
  match s with playingGame => true | _ => false end.

Definition mounted (w : World) : bool := isPlaying (gameState (app w)).

(** A state setter of the game screen: ignored once it is unmounted. *)
Definition setState (f : GameScreen -> GameScreen) (w : World) : World :=
  upd_game (fun g => if mounted w then f g else g) w.

(** A write through a [useRef] cell: takes effect mounted or not. *)
Definition setRef (f : GameScreen -> GameScreen) (w : World) : World :=
  upd_game f w.

Definition setScore (v : nat) : World -> World :=
  setState (fun g =>
    {| score := v; currentNote := currentNote g; status := status g;
       feedback := feedback g; round := round g; message := message g;
       availableNotes := availableNotes g;
       showExitConfirm := showExitConfirm g;
       audioContextRef := audioContextRef g;
       audioCleanupRef := audioCleanupRef g; mountTimer := mountTimer g |}).

Definition setCurrentNote (v : option Note) : World -> World :=
  setState (fun g =>
    {| score := score g; currentNote := v; status := status g;
       feedback := feedback g; round := round g; message := message g;
       availableNotes := availableNotes g;
       showExitConfirm := showExitConfirm g;
       audioContextRef := audioContextRef g;
       audioCleanupRef := audioCleanupRef g; mountTimer := mountTimer g |}).

Definition setStatus (v : Status.t) : World -> World :=
  setState (fun g =>
    {| score := score g; currentNote := currentNote g; status := v;
       feedback := feedback g; round := round g; message := message g;
       availableNotes := availableNotes g;
       showExitConfirm := showExitConfirm g;
       audioContextRef := audioContextRef g;
       audioCleanupRef := audioCleanupRef g; mountTimer := mountTimer g |}).

Definition setFeedback (v : option Feedback) : World -> World :=
  setState (fun g =>
    {| score := score g; currentNote := currentNote g; status := status g;
       feedback := v; round := round g; message := message g;
       availableNotes := availableNotes g;
       showExitConfirm := showExitConfirm g;
       audioContextRef := audioContextRef g;
       audioCleanupRef := audioCleanupRef g; mountTimer := mountTimer g |}).

Definition setRound (v : nat) : World -> World :=
  setState (fun g =>
    {| score := score g; currentNote := currentNote g; status := status g;
       feedback := feedback g; round := v; message := message g;
       availableNotes := availableNotes g;
       showExitConfirm := showExitConfirm g;
       audioContextRef := audioContextRef g;
       audioCleanupRef := audioCleanupRef g; mountTimer := mountTimer g |}).

Definition setMessage (v : Message) : World -> World :=
  setState (fun g =>
    {| score := score g; currentNote := currentNote g; status := status g;
       feedback := feedback g; round := round g; message := v;
       availableNotes := availableNotes g;
       showExitConfirm := showExitConfirm g;
       audioContextRef := audioContextRef g;
       audioCleanupRef := audioCleanupRef g; mountTimer := mountTimer g |}).

Definition setAvailableNotes (v : list Note) : World -> World :=
  setState (fun g =>
    {| score := score g; currentNote := currentNote g; status := status g;
       feedback := feedback g; round := round g; message := message g;
       availableNotes := v;
       showExitConfirm := showExitConfirm g;
       audioContextRef := audioContextRef g;
       audioCleanupRef := audioCleanupRef g; mountTimer := mountTimer g |}).

Definition setShowExitConfirm (v : bool) : World -> World :=
  setState (fun g =>
    {| score := score g; currentNote := currentNote g; status := status g;
       feedback := feedback g; round := round g; message := message g;
       availableNotes := availableNotes g;
       showExitConfirm := v;
       audioContextRef := audioContextRef g;
       audioCleanupRef := audioCleanupRef g; mountTimer := mountTimer g |}).

Definition setAudioContextRef (v : AudioContextRef) : World -> World :=
  setRef (fun g =>
    {| score := score g; currentNote := currentNote g; status := status g;
       feedback := feedback g; round := round g; message := message g;
       availableNotes := availableNotes g;
       showExitConfirm := showExitConfirm g;
       audioContextRef := v;
       audioCleanupRef := audioCleanupRef g; mountTimer := mountTimer g |}).

Definition setAudioCleanupRef (v : option nat) : World -> World :=
  setRef (fun g =>
    {| score := score g; currentNote := currentNote g; status := status g;
       feedback := feedback g; round := round g; message := message g;
       availableNotes := availableNotes g;
       showExitConfirm := showExitConfirm g;
       audioContextRef := audioContextRef g;
       audioCleanupRef := v; mountTimer := mountTimer g |}).

(** *** setTimeout / clearTimeout *)

Definition setTimeout (cb : Callback) (delay : Z) (w : World) : nat * World :=
  let id := nextTimerId (loop w) in
  (id,
   upd_loop (fun l =>
     {| now := now l;
        timers := timers l ++ [ {| tid := id; due := now l + delay;
                                   callback := cb |} ];
        nextTimerId := S id |}) w).

Definition clearTimeout (id : nat) (w : World) : World :=
  upd_loop (fun l =>
    {| now := now l;
       timers := filter (fun t => tid t <> id) (timers l);
       nextTimerId := nextTimerId l |}) w.

(** ** utils/audio.ts: registry, single notes, sequences *)

Definition stopAllAudio (w : World) : World := set_sources [] w.

(** The [ended] event of each started oscillator, queued for the instant
    the oscillator was told to stop. *)
Definition queueEnded (delay : Z) (ids : list nat) (w : World) : World :=
  foldl (fun w o => (setTimeout (CbOnEnded o) delay w).2) w ids.

Definition playNote (note : Note) (duration : Q) (w : World) : World :=
  match audioContext (audioContextRef (game w)) with
  | None => w
  | Some ctx =>
      let frequency := Audio.noteFrequencies note in
      let t0 := Audio.currentTime ctx (now (loop w)) in
      let tone := Audio.createPianoTone t0 frequency duration in
      let ids := seq (Audio.nextNodeId ctx) (length (Audio.oscillators tone)) in
      let ctx' :=
        {| Audio.timeOrigin := Audio.timeOrigin ctx;
           Audio.nextNodeId := Audio.nextNodeId ctx + length ids;
           Audio.destination :=
             Audio.destination ctx ++
             [ {| Audio.pitch := note; Audio.tone := tone;
                  Audio.sources := ids;
                  Audio.startAt := t0; Audio.stopAt := (t0 + duration)%Q |} ] |} in
      let w := setAudioContextRef
                 {| audioContext := Some ctx';
                    gainNode := gainNode (audioContextRef (game w)) |} w in
      let w := set_sources (activeAudioSources w ++ ids) w in
      queueEnded (Qfloor (duration * 1000)%Q) ids w
  end.

(** [const index = activeAudioSources.indexOf(osc);
     if (index > -1) activeAudioSources.splice(index, 1)] *)
Fixpoint removeFirst (o : nat) (l : list nat) : list nat :=
  match l with
  | [] => []
  | x :: l' => if decide (x = o) then l' else x :: removeFirst o l'
  end.

Definition onended (o : nat) (w : World) : World :=
  set_sources (removeFirst o (activeAudioSources w)) w.

Definition scaleNotes : list Note := [C; D; E; F; G; A; B].
Definition triadSequence : list Note := [C; E; G; E; C].

Definition setPlayer (h : nat) (p : Player) (w : World) : World :=
  set_players (<[h := p]> (players w)) w.

(** The body shared, word for word, by the [playNextNote] closures of
    [playScale] and [playTriad]; [h] addresses the activation's variables. *)
Definition playNextNote (h : nat) (onComplete : OnComplete) (w : World)
    : World :=
  match players w !! h with
  | None => w
  | Some p =>
      match notes p !! index p with
      | Some note =>                              (* index < notes.length *)
          let w := playNote note 0.6%Q w in
          let w := observe (SeqNote h (index p) note 0.6%Q (now (loop w))) w in
          let '(id, w) := setTimeout (CbPlayNextNote h onComplete) 700 w in
          setPlayer h {| notes := notes p; index := S (index p);
                         timeoutId := Some id |} w
      | None =>
          let '(id, w) := setTimeout (CbOnComplete h onComplete) 600 w in
          setPlayer h {| notes := notes p; index := index p;
                         timeoutId := Some id |} w
      end
  end.

Definition newPlayer (notes : list Note) (w : World) : nat * World :=
  (length (players w),
   set_players
     (players w ++ [ {| notes := notes; index := 0; timeoutId := None |} ]) w).

(** Both return the handle; the [cleanup] closure is [cleanup h]. *)
Definition playScale (onComplete : OnComplete) (w : World) : nat * World :=
  let '(h, w) := newPlayer scaleNotes w in
  (h, playNextNote h onComplete w).

Definition playTriad (onComplete : OnComplete) (w : World) : nat * World :=
  let '(h, w) := newPlayer triadSequence w in
  (h, playNextNote h onComplete w).

(** JavaScript truthiness of a timer id. *)
Definition truthy (id : nat) : bool := negb (id =? 0)%nat.

Definition clearIfSet (timeoutId : option nat) (w : World) : World :=
  match timeoutId with
  | Some id => if truthy id then clearTimeout id w else w
  | None => w
  end.

Definition cleanup (h : nat) (w : World) : World :=
  match players w !! h with
  | Some p => clearIfSet (timeoutId p) w
  | None => w
  end.

(** ** App.tsx: the callbacks handed to the game screen *)

(** [if (audioCleanupRef.current) audioCleanupRef.current()] *)
Definition runAudioCleanup (w : World) : World :=
  match audioCleanupRef (game w) with
  | Some h => cleanup h w
  | None => w
  end.

(** Cleanup of the game screen's mount effect, run when it is unmounted. *)
Definition unmountGameScreen (w : World) : World :=
  let w := clearTimeout (mountTimer (game w)) w in
  let w := stopAllAudio w in
  runAudioCleanup w.

(** A change of [gameState] away from ['playing'] unmounts the screen. *)
Definition setGameState (f : App -> App) (w : World) : World :=
  let was := mounted w in
  let w := upd_app f w in
  if was && negb (mounted w) then unmountGameScreen w else w.

Module AppCallbacks.

Definition endGame (finalScore finalTotalQuestions : nat) (w : World) : World :=
  let w := observe (EndGameCalled finalScore finalTotalQuestions) w in
  setGameState (fun a =>
    {| gameState := scores; appScore := finalScore;
       totalQuestions := finalTotalQuestions |}) w.

Definition exitGame (w : World) : World :=
  let w := observe ExitGameCalled w in
  setGameState (fun a =>
    {| gameState := welcome; appScore := appScore a;
       totalQuestions := totalQuestions a |}) w.

End AppCallbacks.

(** ** components/GameScreen.tsx *)

Section GameScreen.

Variable difficulty : string.
Variable arduinoPort : bool.

Definition totalRounds : nat :=
  if decide (difficulty = "easy") then 5 else 10.

Definition allNotes : list Note := [C; D; E; F; G; A; B].

Definition pinToNote (pin : Z) : option Note :=
  if decide (pin = 2)%Z then Some C
  else if decide (pin = 3)%Z then Some D
  else if decide (pin = 4)%Z then Some E
  else if decide (pin = 5)%Z then Some F
  else if decide (pin = 6)%Z then Some G
  else if decide (pin = 7)%Z then Some A
  else if decide (pin = 8)%Z then Some B
  else None.

Definition getAvailableNotes (difficulty : string) : list Note :=
  if decide (difficulty = "easy") then [C; E; G]
  else if decide (difficulty = "medium") then [C; E; F; G]
  else if decide (difficulty = "hard") then [C; D; E; F; G; A; B]
  else [C; E; G].

Definition initializeAudioContext (w : World) : World :=
  match audioContext (audioContextRef (game w)) with
  | Some _ => w
  | None =>
      setAudioContextRef
        {| audioContext :=
             Some {| Audio.timeOrigin := now (loop w);
                     Audio.nextNodeId := 0;
                     Audio.destination := [] |};
           gainNode := Some 0.5%Q |} w
  end.

Definition selectRandomNote (notes : list Note) (random : Q) (w : World)
    : World :=
  let randomIndex := Z.to_nat (Qfloor (random * inject_Z (Z.of_nat (length notes)))%Q) in
  let note := notes !! randomIndex in
  let w := setCurrentNote note w in
  let w := setStatus Status.guessing w in
  let w := setMessage msgWhichNote w in
  match note with
  | Some n => playNote n 1%Q w
  | None => w
  end.

Definition initializeGame (w : World) : World :=
  let w := observe Primed w in
  let w := initializeAudioContext w in
  let notes := getAvailableNotes difficulty in
  let w := setAvailableNotes notes w in
  let w := setStatus Status.playing w in
  if decide (difficulty = "easy") then
    let w := setMessage msgListeningTriad w in
    let '(h, w) := playTriad (SelectRandomNote notes) w in
    setAudioCleanupRef (Some h) w
  else
    let w := setMessage msgListeningScale w in
    let '(h, w) := playScale (SelectRandomNote notes) w in
    setAudioCleanupRef (Some h) w.

Definition endGame (finalScore : option nat) (w : World) : World :=
  let w := stopAllAudio w in
  let w := runAudioCleanup w in
  AppCallbacks.endGame
    (match finalScore with Some s => s | None => score (game w) end)
    totalRounds w.

Definition handleNoteGuess (guessedNote : Note) (w : World) : World :=
  if negb (bool_decide (status (game w) = Status.guessing)) then w else
  let g := game w in
  let isCorrect := bool_decide (Some guessedNote = currentNote g) in
  let w := observe (Guessed isCorrect) w in
  let w := setFeedback (Some (if isCorrect then correct else incorrect)) w in
  let w := setMessage (if isCorrect then msgCorrect (currentNote g)
                       else msgIncorrect (currentNote g) guessedNote) w in
  let w := setStatus Status.feedback w in
  let w := if isCorrect then setScore (S (score (game w))) w else w in
  (setTimeout (CbFeedbackDone isCorrect (round g) (score g)) 2500 w).2.

(** The body of the 2.5 s timeout of [handleNoteGuess]; [isCorrect],
    [round] and [score] are the values the closure captured. *)
Definition feedbackDone (isCorrect : bool) (round score : nat) (w : World)
    : World :=
  if bool_decide (totalRounds <= round) then
    endGame (Some (if isCorrect then score + 1 else score)) w
  else
    let w := setRound (round + 1) w in
    let w := setFeedback None w in
    let w := setStatus Status.initial w in
    let w := setMessage msgGetReady w in
    (setTimeout CbInitializeGame 1500 w).2.

Definition replayCurrentNote (w : World) : World :=
  match currentNote (game w) with
  | Some n =>
      if bool_decide (status (game w) = Status.guessing)
      then playNote n 1%Q w else w
  | None => w
  end.

Definition replayScale (w : World) : World :=
  if bool_decide (status (game w) = Status.guessing) then
    let w := setMessage msgReplaying w in
    if decide (difficulty = "easy") then
      let '(h, w) := playTriad AskAgain w in
      setAudioCleanupRef (Some h) w
    else
      let '(h, w) := playScale AskAgain w in
      setAudioCleanupRef (Some h) w
  else w.

Definition handleExitClick : World -> World := setShowExitConfirm true.

Definition confirmExit (w : World) : World :=
  let w := stopAllAudio w in
  let w := runAudioCleanup w in
  AppCallbacks.exitGame w.

Definition cancelExit : World -> World := setShowExitConfirm false.

Definition handleArduinoData (pin : Z) (w : World) : World :=
  match pinToNote pin with
  | Some note =>
      let g := game w in
      let w := playNote note 0.3%Q w in
      if bool_decide (status g = Status.guessing)
         && bool_decide (note ∈ availableNotes g)
      then handleNoteGuess note w
      else w
  | None => w
  end.

(** ** components/Piano.tsx *)

Definition setPressedKeys (f : list Note -> list Note) (w : World) : World :=
  upd_piano (fun p =>
    {| pressedKeys := if mounted w then f (pressedKeys p) else pressedKeys p;
       pressTimeoutRef := pressTimeoutRef p |}) w.

Definition setPressTimeout (note : Note) (id : nat) (w : World) : World :=
  upd_piano (fun p =>
    {| pressedKeys := pressedKeys p;
       pressTimeoutRef :=
         fun n => if decide (n = note) then Some id else pressTimeoutRef p n |})
    w.

(** [new Set(prev).add(note)] and [newSet.delete(note)] *)
Definition setAdd (note : Note) (s : list Note) : list Note :=
  if bool_decide (note ∈ s) then s else s ++ [note].

Definition setDelete (note : Note) (s : list Note) : list Note :=
  filter (fun n => n <> note) s.

Definition handleKeyPress (disabled : bool) (availableNotes : list Note)
    (onNoteClick : Note -> World -> World) (note : Note) (w : World) : World :=
  if disabled || negb (bool_decide (note ∈ availableNotes)) then w else
  let w := setPressedKeys (setAdd note) w in
  let w := clearIfSet (pressTimeoutRef (piano w) note) w in
  let '(id, w) := setTimeout (CbReleaseKey note) 200 w in
  let w := setPressTimeout note id w in
  let w := playNote note 0.3%Q w in
  onNoteClick note w.

(** The piano as the game screen renders it:
    [<Piano availableNotes={availableNotes} onNoteClick={handleNoteGuess}
            disabled={status !== 'guessing'} .../>] *)
Definition pianoKeyClick (note : Note) (w : World) : World :=
  handleKeyPress (negb (bool_decide (status (game w) = Status.guessing)))
                 (availableNotes (game w)) handleNoteGuess note w.

(** ** Running the event loop *)

Definition runCallback (cb : Callback) (random : Q) (w : World) : World :=
  match cb with
  | CbPlayNextNote h onComplete => playNextNote h onComplete w
  | CbOnComplete h onComplete =>
      let w := observe (SeqDone h (now (loop w))) w in
      match onComplete with
      | SelectRandomNote notes => selectRandomNote notes random w
      | AskAgain => setMessage msgWhichNote w
      end
  | CbFeedbackDone isCorrect round score => feedbackDone isCorrect round score w
  | CbInitializeGame => initializeGame w
  | CbOnEnded o => onended o w
  | CbReleaseKey note => setPressedKeys (setDelete note) w
  end.

(** Take timer [t] off the queue and move the clock to its due time. *)
Definition dequeue (t : Timer) (w : World) : World :=
  upd_loop (fun l =>
    {| now := Z.max (now l) (due t);
       timers := filter (fun t' => tid t' <> tid t) (timers l);
       nextTimerId := nextTimerId l |}) w.

Definition fire (t : Timer) (random : Q) (w : World) : World :=
  runCallback (callback t) random (dequeue t w).

(** The timer that is due first; timers due together run in the order
    they were set. *)
Fixpoint earliest (best : Timer) (l : list Timer) : Timer :=
  match l with
  | [] => best
  | t :: l' => earliest (if (due t <? due best)%Z then t else best) l'
  end.

Definition nextTimer (w : World) : option Timer :=
  match timers (loop w) with
  | [] => None
  | t :: l => Some (earliest t l)
  end.

(** Let the loop run its next [n] timers, [random] being what
    [Math.random] returns. *)
Fixpoint runTimers (n : nat) (random : Q) (w : World) : World :=
  match n with
  | O => w
  | S n' =>
      match nextTimer w with
      | None => w
      | Some t => runTimers n' random (fire t random w)
      end
  end.

(** The world right after [App.startGame] has mounted the game screen at
    clock [t0]: fresh state, and the mount effect has set the 2 s timer. *)
Definition mountGameScreen (t0 : Z) : World :=
  {| loop := {| now := t0;
                timers := [ {| tid := 1; due := t0 + 2000;
                               callback := CbInitializeGame |} ];
                nextTimerId := 2 |};
     activeAudioSources := [];
     players := [];
     game := {| score := 0; currentNote := None; status := Status.initial;
                feedback := None; round := 1; message := msgEmpty;
                availableNotes := []; showExitConfirm := false;
                audioContextRef := {| audioContext := None; gainNode := None |};
                audioCleanupRef := None; mountTimer := 1 |};
     piano := {| pressedKeys := []; pressTimeoutRef := fun _ => None |};
     app := {| gameState := playingGame; appScore := 0; totalQuestions := 0 |};
     trace := [] |}.

(** What can happen next. *)
Inductive Event :=
| TimerFires (random : Q)
| TimePasses (dt : Z)
| KeyClick (note : Note)
| ArduinoData (pin : Z)
| ReplayNoteClick
| ReplayScaleClick
| ExitClick
| ConfirmExitClick
| CancelExitClick.

Inductive step : World -> Event -> World -> Prop :=
| step_timer w t random :
    nextTimer w = Some t ->
    (0 <= random)%Q -> (random < 1)%Q ->
    step w (TimerFires random) (fire t random w)
| step_time w dt :
    (0 <= dt)%Z ->
    Forall (fun t => (now (loop w) + dt <= due t)%Z) (timers (loop w)) ->
    step w (TimePasses dt)
         (upd_loop (fun l => {| now := now l + dt; timers := timers l;
                                nextTimerId := nextTimerId l |}) w)
| step_key w note :
    mounted w = true ->
    step w (KeyClick note) (pianoKeyClick note w)
| step_arduino w pin :
    mounted w = true -> arduinoPort = true ->
    step w (ArduinoData pin) (handleArduinoData pin w)
| step_replay_note w :
    mounted w = true -> status (game w) = Status.guessing ->
    step w ReplayNoteClick (replayCurrentNote w)
| step_replay_scale w :
    mounted w = true -> status (game w) = Status.guessing ->
    step w ReplayScaleClick (replayScale w)
| step_exit w :
    mounted w = true ->
    step w ExitClick (handleExitClick w)
| step_confirm_exit w :
    mounted w = true -> showExitConfirm (game w) = true ->
    step w ConfirmExitClick (confirmExit w)
| step_cancel_exit w :
    mounted w = true -> showExitConfirm (game w) = true ->
    step w CancelExitClick (cancelExit w).

(** Runs of the game: a list of events taking one world to another. *)
Inductive steps : World -> list Event -> World -> Prop :=
| steps_nil w : steps w [] w
| steps_cons w e w' es w'' :
    step w e w' -> steps w' es w'' -> steps w (e :: es) w''.

Definition reachable (w : World) : Prop :=
  exists t0 es, steps (mountGameScreen t0) es w.

End GameScreen.

(** * Properties *)

(** ** Views of a world *)

Definition pending (w : World) : list Timer := timers (loop w).

(** The handle whose continuation a callback is, if any. *)
Definition handleOf (cb : Callback) : option nat :=
  match cb with
  | CbPlayNextNote h _ | CbOnComplete h _ => Some h
  | _ => None
  end.

(** Callbacks that carry a round towards its guessing phase: the start of
    priming, and the continuations of a priming passage. *)
Definition primes (cb : Callback) : bool :=
  match cb with
  | CbInitializeGame
  | CbPlayNextNote _ (SelectRandomNote _)
  | CbOnComplete _ (SelectRandomNote _) => true
  | _ => false
  end.

Definition judges (cb : Callback) : bool :=
  match cb with
  | CbFeedbackDone _ _ _ => true
  | _ => false
  end.

Definition count (P : Callback -> bool) (l : list Timer) : nat :=
  length (filter (fun t => P (callback t) = true) l).

Fixpoint correctCount (tr : list Obs) : nat :=
  match tr with
  | [] => 0
  | Guessed true :: tr' => S (correctCount tr')
  | _ :: tr' => correctCount tr'
  end.

Fixpoint guessesMade (tr : list Obs) : nat :=
  match tr with
  | [] => 0
  | Guessed _ :: tr' => S (guessesMade tr')
  | _ :: tr' => guessesMade tr'
  end.

Fixpoint primings (tr : list Obs) : nat :=
  match tr with
  | [] => 0
  | Primed :: tr' => S (primings tr')
  | _ :: tr' => primings tr'
  end.

(** How often [onEndGame] was called. *)
Fixpoint endings (tr : list Obs) : nat :=
  match tr with
  | [] => 0
  | EndGameCalled _ _ :: tr' => S (endings tr')
  | _ :: tr' => endings tr'
  end.

(** ** Lists of timers *)

Section TimerLists.

Implicit Types (l : list Timer) (t : Timer) (P : Callback -> bool).

Lemma count_nil P : count P [] = 0.
Proof. reflexivity. Qed.

Lemma count_app P l1 l2 : count P (l1 ++ l2) = count P l1 + count P l2.
Proof. unfold count. by rewrite filter_app, length_app. Qed.

Lemma count_cons P t l :
  count P (t :: l) = (if P (callback t) then 1 else 0) + count P l.
Proof.
  unfold count. rewrite filter_cons.
  destruct (decide (P (callback t) = true)) as [->|Hn]; [done|].
  by destruct (P (callback t)).
Qed.

Lemma count_filter_le P (R : Timer -> Prop) `{!forall x, Decision (R x)} l :
  count P (filter R l) <= count P l.
Proof.
  induction l as [|t l IH]; [done|].
  rewrite filter_cons. destruct (decide (R t)).
  - rewrite !count_cons. lia.
  - rewrite count_cons. lia.
Qed.

Lemma count_zero P l t :
  count P l = 0 -> t ∈ l -> P (callback t) = false.
Proof.
  induction l as [|t' l IH]; [by intros _ ?%elem_of_nil|].
  rewrite count_cons. intros H [Heq|Hin]%elem_of_cons.
  - subst t'. destruct (P (callback t)); [lia|done].
  - apply IH; [lia|done].
Qed.

Lemma count_pos P l t :
  t ∈ l -> P (callback t) = true -> 1 <= count P l.
Proof.
  intros Hin HP. destruct (count P l) eqn:E; [|lia].
  rewrite (count_zero _ _ _ E Hin) in HP. done.
Qed.

Lemma filter_all {X} (R : X -> Prop) `{!forall x, Decision (R x)}
    (xs : list X) :
  (forall x, x ∈ xs -> R x) -> filter R xs = xs.
Proof.
  induction xs as [|a xs IH]; intros Hall; [done|].
  rewrite filter_cons_True by (apply Hall; left).
  f_equal. apply IH. intros x Hx. apply Hall. by right.
Qed.

(** Taking a timer off a queue whose ids are distinct. *)
Lemma count_remove P l t :
  NoDup (map tid l) -> t ∈ l ->
  count P (filter (fun t' => tid t' <> tid t) l)
  + (if P (callback t) then 1 else 0) = count P l.
Proof.
  induction l as [|t' l IH]; [by intros _ ?%elem_of_nil|].
  cbn [map]. intros [Hnotin Hnd]%NoDup_cons [Heq|Hin]%elem_of_cons.
  - subst t'. rewrite filter_cons, decide_False by (intros ?; done).
    rewrite filter_all, count_cons; [lia|].
    intros t1 Hin1 Heq. apply Hnotin.
    rewrite <- Heq. by apply list_elem_of_fmap_2.
  - rewrite filter_cons, decide_True.
    + rewrite !count_cons. specialize (IH Hnd Hin). lia.
    + intros Heq. apply Hnotin. rewrite Heq. by apply list_elem_of_fmap_2.
Qed.

Lemma elem_of_filter_tid l id t :
  t ∈ filter (fun t' => tid t' <> id) l <-> tid t <> id /\ t ∈ l.
Proof. by rewrite list_elem_of_filter. Qed.

End TimerLists.

(** ** Normal forms

    Each operation is rewritten as a composition of field updates, so that
    the fields of the resulting world can be read off by computation. *)

Fixpoint endedFrom (id : nat) (at_ : Z) (ids : list nat) : list Timer :=
  match ids with
  | [] => []
  | o :: ids' =>
      {| tid := id; due := at_; callback := CbOnEnded o |}
      :: endedFrom (S id) at_ ids'
  end.

Lemma queueEnded_eq delay ids w :
  queueEnded delay ids w =
  upd_loop (fun l =>
    {| now := now l;
       timers := timers l ++ endedFrom (nextTimerId l) (now l + delay) ids;
       nextTimerId := nextTimerId l + length ids |}) w.
Proof.
  unfold queueEnded. revert w.
  induction ids as [|o ids IH]; intros w; cbn [foldl].
  - destruct w as [[] ? ? ? ? ? ?]. unfold upd_loop. cbn.
    by rewrite app_nil_r, Nat.add_0_r.
  - rewrite IH. unfold setTimeout, upd_loop. cbn.
    rewrite <- app_assoc. cbn. do 3 f_equal. lia.
Qed.

Definition noteSources (w : World) : list nat :=
  match audioContext (audioContextRef (game w)) with
  | None => []
  | Some ctx => seq (Audio.nextNodeId ctx) 5
  end.

(** The tone [playNote] connects to the destination at clock [clock]. *)
Definition sounding (ctx : Audio.AudioContext) (clock : Z) (note : Note)
    (duration : Q) : Audio.Sounding :=
  let t0 := Audio.currentTime ctx clock in
  {| Audio.pitch := note;
     Audio.tone :=
       Audio.createPianoTone t0 (Audio.noteFrequencies note) duration;
     Audio.sources := seq (Audio.nextNodeId ctx) 5;
     Audio.startAt := t0;
     Audio.stopAt := (t0 + duration)%Q |}.

Definition noteRef (note : Note) (duration : Q) (w : World)
    : AudioContextRef :=
  match audioContext (audioContextRef (game w)) with
  | None => audioContextRef (game w)
  | Some ctx =>
      {| audioContext :=
           Some {| Audio.timeOrigin := Audio.timeOrigin ctx;
                   Audio.nextNodeId := Audio.nextNodeId ctx + 5;
                   Audio.destination :=
                     Audio.destination ctx ++
                     [ sounding ctx (now (loop w)) note duration ] |};
         gainNode := gainNode (audioContextRef (game w)) |}
  end.

Lemma playNote_eq note duration w :
  playNote note duration w =
  upd_loop (fun l =>
    {| now := now l;
       timers := timers l ++ endedFrom (nextTimerId l)
                   (now l + Qfloor (duration * 1000)%Q) (noteSources w);
       nextTimerId := nextTimerId l + length (noteSources w) |})
    (set_sources (activeAudioSources w ++ noteSources w)
       (setAudioContextRef (noteRef note duration w) w)).
Proof.
  unfold playNote, noteSources, noteRef.
  destruct (audioContext (audioContextRef (game w))) as [ctx|] eqn:E.
  - by rewrite queueEnded_eq.
  - destruct w as [[] ? ? [] ? ? ?]. cbn in *.
    unfold upd_loop, set_sources, setAudioContextRef, setRef, upd_game. cbn.
    by rewrite !app_nil_r, Nat.add_0_r.
Qed.

(** [clearTimeout] through a possibly unset, possibly falsy variable. *)
Definition cleared (o : option nat) (id : nat) : Prop :=
  o = Some id /\ id <> 0.

#[global] Instance cleared_dec o id : Decision (cleared o id).
Proof. unfold cleared. apply _. Defined.

Lemma clearIfSet_eq o w :
  clearIfSet o w =
  upd_loop (fun l =>
    {| now := now l;
       timers := filter (fun t => ~ cleared o (tid t)) (timers l);
       nextTimerId := nextTimerId l |}) w.
Proof.
  unfold clearIfSet, truthy, clearTimeout, upd_loop, cleared.
  destruct o as [id|]; [destruct (Nat.eqb_spec id 0) as [->|Hne]|]; cbn.
  - destruct w as [[] ? ? ? ? ? ?]; cbn. do 2 f_equal.
    symmetry. apply filter_all. intros x _ [? ?]. congruence.
  - do 2 f_equal. apply list_filter_iff. intros x. split.
    + intros Hx [[= ->] _]. done.
    + intros Hx Heq. apply Hx. split; congruence.
  - destruct w as [[] ? ? ? ? ? ?]; cbn. do 2 f_equal.
    symmetry. apply filter_all. intros x _ [? ?]. done.
Qed.

(** The timer id that [audioCleanupRef.current()] would clear. *)
Definition storedTimeout (w : World) : option nat :=
  match audioCleanupRef (game w) with
  | Some h =>
      match players w !! h with
      | Some p => timeoutId p
      | None => None
      end
  | None => None
  end.

Lemma storedTimeout_frame w w' :
  audioCleanupRef (game w') = audioCleanupRef (game w) ->
  players w' = players w ->
  storedTimeout w' = storedTimeout w.
Proof. unfold storedTimeout. by intros -> ->. Qed.

(** Rewrite [storedTimeout] of a world built from [w] to that of [w]. *)
Ltac stored_of w :=
  repeat match goal with
  | |- context [storedTimeout ?x] =>
      lazymatch x with
      | w => fail
      | _ => rewrite (storedTimeout_frame w x) by reflexivity
      end
  end.

Lemma runAudioCleanup_eq w :
  runAudioCleanup w = clearIfSet (storedTimeout w) w.
Proof.
  unfold runAudioCleanup, storedTimeout, cleanup.
  destruct (audioCleanupRef (game w)) as [h|]; [|done].
  by destruct (players w !! h).
Qed.

Definition initRef (w : World) : AudioContextRef :=
  match audioContext (audioContextRef (game w)) with
  | Some _ => audioContextRef (game w)
  | None =>
      {| audioContext :=
           Some {| Audio.timeOrigin := now (loop w);
                   Audio.nextNodeId := 0;
                   Audio.destination := [] |};
         gainNode := Some 0.5%Q |}
  end.

Lemma initializeAudioContext_eq w :
  initializeAudioContext w = setAudioContextRef (initRef w) w.
Proof.
  unfold initializeAudioContext, initRef.
  destruct (audioContext (audioContextRef (game w))) eqn:E; [|done].
  by destruct w as [? ? ? [] ? ? ?].
Qed.

(** Leaving the game screen, as [endGame] and [confirmExit] both do: stop
    the audio, run the stored cleanup, call the parent's callback [o], which
    sets the state of [App] with [f]. *)
Definition leaving (f : App -> App) (o : Obs) (w : World) : World :=
  upd_app f (observe o (clearIfSet (storedTimeout w) (set_sources [] w))).

Definition unmounting (w : World) (w' : World) : World :=
  clearIfSet (storedTimeout w)
    (set_sources [] (clearTimeout (mountTimer (game w)) w')).

Lemma leave_eq f o w :
  (forall a, gameState (f a) <> playingGame) ->
  setGameState f (observe o (runAudioCleanup (stopAllAudio w))) =
  if mounted w then unmounting w (leaving f o w) else leaving f o w.
Proof.
  intros Hf. unfold setGameState, unmountGameScreen, stopAllAudio, leaving,
    unmounting.
  rewrite !runAudioCleanup_eq. stored_of w.
  set (w1 := upd_app f _).
  assert (mounted w1 = false) as ->.
  { unfold mounted, isPlaying, w1. rewrite clearIfSet_eq. cbn.
    specialize (Hf (app w)). by destruct (gameState (f (app w))). }
  assert (mounted (observe o (clearIfSet (storedTimeout w) (set_sources [] w)))
          = mounted w) as ->.
  { unfold mounted. by rewrite clearIfSet_eq. }
  destruct (mounted w); cbn [andb negb]; [|done].
  rewrite (storedTimeout_frame w).
  - f_equal. unfold w1. by rewrite clearIfSet_eq.
  - unfold w1. by rewrite clearIfSet_eq.
  - unfold w1. by rewrite clearIfSet_eq.
Qed.

Lemma endGame_eq difficulty finalScore w :
  endGame difficulty finalScore w =
  let s := match finalScore with Some s => s | None => score (game w) end in
  let f := fun _ : App =>
             {| gameState := scores; appScore := s;
                totalQuestions := totalRounds difficulty |} in
  let o := EndGameCalled s (totalRounds difficulty) in
  if mounted w then unmounting w (leaving f o w) else leaving f o w.
Proof.
  unfold endGame, AppCallbacks.endGame. cbn zeta.
  replace (score (game (runAudioCleanup (stopAllAudio w))))
    with (score (game w))
    by (by rewrite runAudioCleanup_eq, clearIfSet_eq).
  by rewrite leave_eq.
Qed.

Lemma confirmExit_eq w :
  confirmExit w =
  let f := fun a : App =>
             {| gameState := welcome; appScore := appScore a;
                totalQuestions := totalQuestions a |} in
  if mounted w then unmounting w (leaving f ExitGameCalled w)
  else leaving f ExitGameCalled w.
Proof.
  unfold confirmExit, AppCallbacks.exitGame. cbn zeta.
  by rewrite leave_eq.
Qed.

(** ** Runs as sequences of actions *)

Section Invariants.

Variable difficulty : string.
Variable arduinoPort : bool.

Lemma earliest_elem best l : earliest best l = best \/ earliest best l ∈ l.
Proof.
  revert best. induction l as [|t l IH]; intros best; cbn; [by left|].
  destruct (IH (if (due t <? due best)%Z then t else best)) as [->|Hin].
  - destruct (due t <? due best)%Z; [right; left|by left].
  - right. by right.
Qed.

Lemma earliest_min best l t :
  t = best \/ t ∈ l -> (due (earliest best l) <= due t)%Z.
Proof.
  revert best t. induction l as [|t' l IH]; intros best t; cbn.
  - intros [->|?%elem_of_nil]; [lia|done].
  - intros Ht.
    assert (Hb : forall x, (due (earliest x l) <= due x)%Z)
      by (intros x; apply IH; by left).
    destruct (Z.ltb_spec (due t') (due best)).
    + destruct Ht as [->|[->|Hin]%elem_of_cons].
      * specialize (Hb t'). lia.
      * apply Hb.
      * apply IH. by right.
    + destruct Ht as [->|[->|Hin]%elem_of_cons].
      * apply Hb.
      * specialize (Hb best). lia.
      * apply IH. by right.
Qed.

Lemma nextTimer_elem w t : nextTimer w = Some t -> t ∈ pending w.
Proof.
  unfold nextTimer, pending. destruct (timers (loop w)) as [|t0 l]; [done|].
  intros [= <-]. destruct (earliest_elem t0 l) as [->|?]; [left|by right].
Qed.

Lemma nextTimer_min w t t' :
  nextTimer w = Some t -> t' ∈ pending w -> (due t <= due t')%Z.
Proof.
  unfold nextTimer, pending. destruct (timers (loop w)) as [|t0 l]; [done|].
  intros [= <-] [->|?]%elem_of_cons; apply earliest_min; auto.
Qed.

(** The part of [handleKeyPress] that shows the key as pressed. *)
Definition pressKey (note : Note) (w : World) : World :=
  let w := setPressedKeys (setAdd note) w in
  let w := clearIfSet (pressTimeoutRef (piano w) note) w in
  let '(id, w) := setTimeout (CbReleaseKey note) 200 w in
  setPressTimeout note id w.

(** The actions that steps are made of. *)
Inductive act : World -> World -> Prop :=
| act_fire w t random :
    nextTimer w = Some t -> act w (fire difficulty t random w)
| act_time w dt :
    (0 <= dt)%Z ->
    Forall (fun t => (now (loop w) + dt <= due t)%Z) (timers (loop w)) ->
    act w (upd_loop (fun l => {| now := now l + dt; timers := timers l;
                                nextTimerId := nextTimerId l |}) w)
| act_note w note duration :
    (0 <= Qfloor (duration * 1000)%Q)%Z ->
    act w (playNote note duration w)
| act_press w note :
    mounted w = true -> act w (pressKey note w)
| act_guess w note :
    mounted w = true -> status (game w) = Status.guessing ->
    act w (handleNoteGuess note w)
| act_replay w :
    mounted w = true -> status (game w) = Status.guessing ->
    act w (replayScale difficulty w)
| act_show w b :
    mounted w = true -> act w (setShowExitConfirm b w)
| act_confirm w :
    mounted w = true -> act w (confirmExit w).

Lemma playNote_frame note duration w :
  mounted (playNote note duration w) = mounted w /\
  status (game (playNote note duration w)) = status (game w).
Proof. by rewrite playNote_eq. Qed.

Lemma pressKey_frame note w :
  mounted (pressKey note w) = mounted w /\
  status (game (pressKey note w)) = status (game w).
Proof. unfold pressKey. by rewrite clearIfSet_eq. Qed.

Lemma handleNoteGuess_idle note w :
  status (game w) <> Status.guessing -> handleNoteGuess note w = w.
Proof. intros. unfold handleNoteGuess. by rewrite bool_decide_false. Qed.

Lemma step_acts w e w' :
  step difficulty arduinoPort w e w' -> rtc act w w'.
Proof.
  destruct 1 as [w t x Hnext _ _|w dt ? ?|w note Hm|w pin Hm _|w Hm Hst
                |w Hm Hst|w Hm|w Hm _|w Hm _].
  - apply rtc_once. by apply act_fire.
  - apply rtc_once. by apply act_time.
  - unfold pianoKeyClick, handleKeyPress.
    destruct (_ || _) eqn:Hdis; [reflexivity|].
    apply orb_false_elim in Hdis as [Hst%negb_false_iff%bool_decide_eq_true _].
    change (rtc act w (handleNoteGuess note
                         (playNote note 0.3 (pressKey note w)))).
    destruct (pressKey_frame note w) as [Hm1 Hs1].
    destruct (playNote_frame note 0.3 (pressKey note w)) as [Hm2 Hs2].
    apply rtc_l with (pressKey note w); [by apply act_press|].
    apply rtc_l with (playNote note 0.3%Q (pressKey note w));
      [apply act_note; by vm_compute|].
    apply rtc_once. apply act_guess; congruence.
  - unfold handleArduinoData.
    destruct (pinToNote pin) as [note|]; [|reflexivity].
    destruct (playNote_frame note 0.3 w) as [Hm2 Hs2].
    apply rtc_l with (playNote note 0.3%Q w);
      [apply act_note; by vm_compute|].
    destruct (_ && _) eqn:Hg; [|reflexivity].
    apply andb_prop in Hg as [Hst%bool_decide_eq_true _].
    apply rtc_once. apply act_guess; congruence.
  - unfold replayCurrentNote. destruct (currentNote (game w)); [|reflexivity].
    rewrite bool_decide_true by done. apply rtc_once.
    apply act_note. by vm_compute.
  - apply rtc_once. by apply act_replay.
  - apply rtc_once. by apply act_show.
  - apply rtc_once. by apply act_confirm.
  - apply rtc_once. by apply act_show.
Qed.

(** *** Timer ids are positive, distinct and below the next id *)

Definition idsOk (l : list Timer) (n : nat) : Prop :=
  1 <= n /\ Forall (fun t => 1 <= tid t < n) l /\ NoDup (tid <$> l).

Lemma idsOk_filter (R : Timer -> Prop) `{!forall x, Decision (R x)} l n :
  idsOk l n -> idsOk (filter R l) n.
Proof.
  intros (? & Hall & Hnd). split_and!; [done| |].
  - apply Forall_forall. intros t [_ Hin]%list_elem_of_filter.
    rewrite Forall_forall in Hall. by apply Hall.
  - apply (sublist_NoDup (tid <$> filter R l) (tid <$> l)); [done|].
    apply fmap_sublist, sublist_filter.
Qed.

Lemma idsOk_snoc l n d cb :
  idsOk l n -> idsOk (l ++ [ {| tid := n; due := d; callback := cb |} ]) (S n).
Proof.
  intros (? & Hall & Hnd). split_and!; [lia| |].
  - apply Forall_app. split.
    + eapply Forall_impl; [done|]. cbn. intros; lia.
    + repeat constructor; cbn; lia.
  - rewrite fmap_app. apply NoDup_app. split_and!; [done| |].
    + intros x Hx. cbn. intros ->%list_elem_of_singleton.
      apply list_elem_of_fmap in Hx as (t & -> & Hin).
      rewrite Forall_forall in Hall. specialize (Hall _ Hin). lia.
    + cbn. apply NoDup_singleton.
Qed.

Lemma endedFrom_snoc n d ids o :
  endedFrom n d (ids ++ [o]) =
  endedFrom n d ids
  ++ [ {| tid := n + length ids; due := d; callback := CbOnEnded o |} ].
Proof.
  revert n. induction ids as [|o' ids IH]; intros n; cbn.
  - by rewrite Nat.add_0_r.
  - rewrite IH. cbn. by rewrite Nat.add_succ_r.
Qed.

Lemma idsOk_ended l n d ids :
  idsOk l n -> idsOk (l ++ endedFrom n d ids) (n + length ids).
Proof.
  induction ids as [|o ids IH] using rev_ind; intros Hl.
  - cbn. by rewrite app_nil_r, Nat.add_0_r.
  - rewrite endedFrom_snoc, length_app, app_assoc. cbn.
    replace (n + (length ids + 1)) with (S (n + length ids)) by lia.
    by apply idsOk_snoc, IH.
Qed.

Arguments playNote : simpl never.
Arguments clearIfSet : simpl never.
Arguments storedTimeout : simpl never.
Arguments noteSources : simpl never.
Arguments noteRef : simpl never.
Arguments initRef : simpl never.
Arguments endedFrom : simpl never.
Arguments count : simpl never.
Arguments isPlaying !s : simpl nomatch.
Arguments Qfloor : simpl never.
Arguments Qmult : simpl never.

Lemma startSeq_eq ns n0 rest oc w :
  ns = n0 :: rest ->
  playNextNote (length (players w)) oc
    (set_players (players w ++ [ {| notes := ns; index := 0; timeoutId := None |} ]) w) =
  setPlayer (length (players w))
    {| notes := ns; index := 1;
       timeoutId := Some (nextTimerId (loop w) + length (noteSources w)) |}
    (setTimeout (CbPlayNextNote (length (players w)) oc) 700
       (observe (SeqNote (length (players w)) 0 n0 0.6%Q (now (loop w)))
          (playNote n0 0.6%Q
             (set_players (players w ++ [ {| notes := ns; index := 0; timeoutId := None |} ]) w)))).2.
Proof.
  intros ->. unfold playNextNote. cbn [players set_players].
  rewrite list_lookup_middle by done. cbn [notes index lookup list_lookup].
  rewrite playNote_eq. reflexivity.
Qed.

(** Split on whether the game screen of [w] is still mounted. *)
Ltac by_mounted w :=
  unfold mounted in *;
  let Hm := fresh "Hm" in
  destruct (isPlaying (gameState (app w))) eqn:Hm.

Ltac norm :=
  rewrite ?playNote_eq, ?initializeAudioContext_eq, ?endGame_eq,
    ?confirmExit_eq;
  unfold unmounting, leaving;
  rewrite ?clearIfSet_eq; cbn;
  repeat (progress (unfold mounted; cbn));
  try match goal with
      | H : isPlaying (gameState (app _)) = _ |- _ => rewrite !H; cbn
      end.

(** Case analysis on what a timer's callback does; [w] is the world the
    timer was pending in. *)
Ltac callback_cases cb w :=
  destruct cb as [h oc|h oc|c r s| |o|n]; cbn [runCallback callback];
  [ unfold playNextNote;
    let p := fresh "p" in let Hp := fresh "Hp" in let Hn := fresh "Hn" in
    destruct (players _ !! h) as [p|] eqn:Hp;
    [destruct (notes p !! index p) eqn:Hn|]
  | destruct oc as [ns|];
    [unfold selectRandomNote;
     let Hn := fresh "Hn" in destruct (ns !! _) eqn:Hn|]
  | unfold feedbackDone; case_bool_decide;
    [rewrite endGame_eq; cbn zeta; unfold unmounting, leaving;
     rewrite !(storedTimeout_frame w) by reflexivity;
     change (mounted (dequeue _ w)) with (mounted w);
     by_mounted w; try discriminate|]
  | unfold initializeGame, playTriad, playScale, newPlayer;
    destruct (decide (difficulty = "easy")); rewrite initializeAudioContext_eq;
    erewrite startSeq_eq by reflexivity
  | unfold onended
  | ].

Ltac handler_cases :=
  lazymatch goal with
  | |- context [pressKey ?n ?w] => unfold pressKey
  | |- context [handleNoteGuess ?n ?w] =>
      unfold handleNoteGuess; rewrite bool_decide_true by done; cbn [negb];
      let Hc := fresh "Hc" in destruct (bool_decide (Some n = _)) eqn:Hc
  | |- context [replayScale ?d ?w] =>
      unfold replayScale, playTriad, playScale, newPlayer;
      rewrite bool_decide_true by done;
      destruct (decide (difficulty = "easy"));
      erewrite startSeq_eq by reflexivity
  | |- context [confirmExit ?w] =>
      rewrite confirmExit_eq; cbn zeta; by_mounted w; try discriminate
  end.

Definition timerIds (w : World) : Prop :=
  idsOk (pending w) (nextTimerId (loop w)).

Ltac ids :=
  repeat first
    [ assumption | apply idsOk_snoc | apply idsOk_ended | apply idsOk_filter ].

Lemma act_timerIds w w' : act w w' -> timerIds w -> timerIds w'.
Proof.
  unfold timerIds, pending.
  destruct 1 as [w t x Hnext| | | | | | | ]; intros Hids.
  - unfold fire. destruct t as [id0 due0 cb]. callback_cases cb w; norm; ids.
  - exact Hids.
  - norm; ids.
  - handler_cases; norm; ids.
  - handler_cases; norm; ids.
  - handler_cases; norm; ids.
  - exact Hids.
  - handler_cases; norm; ids.
Qed.

(** *** Every pending continuation is the one its activation remembers *)

Definition handlesOk (l : list Timer) (ps : list Player) : Prop :=
  forall t h, t ∈ l -> handleOf (callback t) = Some h ->
    exists p, ps !! h = Some p /\ timeoutId p = Some (tid t).

Definition noHandle (h : nat) (l : list Timer) : Prop :=
  forall t, t ∈ l -> handleOf (callback t) <> Some h.

Lemma endedFrom_callback n d ids t :
  t ∈ endedFrom n d ids -> exists o, callback t = CbOnEnded o.
Proof.
  revert n. induction ids as [|o ids IH]; intros n; cbn.
  - by intros ?%elem_of_nil.
  - intros [->|Hin]%elem_of_cons; [by exists o|by eapply IH].
Qed.

Lemma handlesOk_filter (R : Timer -> Prop) `{!forall x, Decision (R x)} l ps :
  handlesOk l ps -> handlesOk (filter R l) ps.
Proof. intros Hl t h [_ Hin]%list_elem_of_filter. by apply Hl. Qed.

Lemma handlesOk_ended l ps n d ids :
  handlesOk l ps -> handlesOk (l ++ endedFrom n d ids) ps.
Proof.
  intros Hl t h [Hin|Hin]%elem_of_app; [by apply Hl|].
  apply endedFrom_callback in Hin as [o ->]. done.
Qed.

Lemma handlesOk_snoc l ps id d cb :
  handleOf cb = None ->
  handlesOk l ps ->
  handlesOk (l ++ [ {| tid := id; due := d; callback := cb |} ]) ps.
Proof.
  intros Hcb Hl t h [Hin|Hin]%elem_of_app; [by apply Hl|].
  apply list_elem_of_singleton in Hin as ->. cbn. by rewrite Hcb.
Qed.

Lemma handlesOk_new l ps p : handlesOk l ps -> handlesOk l (ps ++ [p]).
Proof.
  intros Hl t h Hin Hh. destruct (Hl t h Hin Hh) as (p' & Hp' & Hid).
  exists p'. split; [|done]. by apply lookup_app_l_Some.
Qed.

Lemma noHandle_filter (R : Timer -> Prop) `{!forall x, Decision (R x)} h l :
  noHandle h l -> noHandle h (filter R l).
Proof. intros Hl t [_ Hin]%list_elem_of_filter. by apply Hl. Qed.

Lemma noHandle_ended h l n d ids :
  noHandle h l -> noHandle h (l ++ endedFrom n d ids).
Proof.
  intros Hl t [Hin|Hin]%elem_of_app; [by apply Hl|].
  apply endedFrom_callback in Hin as [o ->]. done.
Qed.

Lemma noHandle_snoc h l id d cb :
  handleOf cb <> Some h ->
  noHandle h l ->
  noHandle h (l ++ [ {| tid := id; due := d; callback := cb |} ]).
Proof.
  intros Hcb Hl t [Hin|Hin]%elem_of_app; [by apply Hl|].
  by apply list_elem_of_singleton in Hin as ->.
Qed.

Lemma noHandle_fresh l ps : handlesOk l ps -> noHandle (length ps) l.
Proof.
  intros Hl t Hin Hh. destruct (Hl t _ Hin Hh) as (p & Hp%lookup_lt_Some & _).
  lia.
Qed.

(** Once a continuation is off the queue, its activation has none left. *)
Lemma noHandle_dequeue l ps t h :
  handlesOk l ps -> t ∈ l -> handleOf (callback t) = Some h ->
  noHandle h (filter (fun t' => tid t' <> tid t) l).
Proof.
  intros Hl Hin Hh t' [Hne Hin']%list_elem_of_filter Hh'.
  destruct (Hl t h Hin Hh) as (p & Hp & Hid).
  destruct (Hl t' h Hin' Hh') as (p' & Hp' & Hid').
  congruence.
Qed.

Lemma handlesOk_next l ps h id d cb ns i :
  handlesOk l ps -> h < length ps -> noHandle h l ->
  handleOf cb = Some h ->
  handlesOk (l ++ [ {| tid := id; due := d; callback := cb |} ])
    (<[h := {| notes := ns; index := i; timeoutId := Some id |}]> ps).
Proof.
  intros Hl Hlt Hno Hcb t h' [Hin|Hin]%elem_of_app Hh'.
  - destruct (decide (h' = h)) as [->|Hne]; [by destruct (Hno t Hin)|].
    rewrite list_lookup_insert_ne by done. by apply Hl.
  - apply list_elem_of_singleton in Hin as ->. cbn in Hh'.
    assert (h' = h) as -> by congruence.
    rewrite list_lookup_insert_eq by done. by eexists.
Qed.

Definition handles (w : World) : Prop := handlesOk (pending w) (players w).

Ltac hs :=
  repeat first
    [ assumption
    | apply handlesOk_ended
    | apply handlesOk_filter
    | apply handlesOk_new
    | apply handlesOk_snoc; [reflexivity|] ].

Ltac nh :=
  repeat first
    [ assumption
    | apply noHandle_ended
    | apply noHandle_filter
    | apply noHandle_fresh
    | apply noHandle_snoc; [discriminate|] ].

Lemma act_handles w w' : act w w' -> handles w -> handles w'.
Proof.
  unfold handles, pending.
  destruct 1 as [w t x Hnext| | | | | | | ]; intros Hh.
  - apply nextTimer_elem in Hnext. unfold pending in Hnext.
    unfold fire. destruct t as [id0 due0 cb]. callback_cases cb w; norm; hs.
    + apply handlesOk_next; [hs| by eapply lookup_lt_Some | |done].
      apply noHandle_ended. exact (noHandle_dequeue _ _ _ _ Hh Hnext eq_refl).
    + apply handlesOk_next; [hs| by eapply lookup_lt_Some | |done].
      exact (noHandle_dequeue _ _ _ _ Hh Hnext eq_refl).
    + apply handlesOk_next; [hs| rewrite length_app; cbn; lia | nh | done].
    + apply handlesOk_next; [hs| rewrite length_app; cbn; lia | nh | done].
  - exact Hh.
  - norm; hs.
  - handler_cases; norm; hs.
  - handler_cases; norm; hs.
  - handler_cases; norm; hs.
    + apply handlesOk_next; [hs| rewrite length_app; cbn; lia | nh | done].
    + apply handlesOk_next; [hs| rewrite length_app; cbn; lia | nh | done].
  - exact Hh.
  - handler_cases; norm; hs.
Qed.

(** *** The piano's release timers *)

Definition pianoOk (ref : Note -> option nat) (l : list Timer) (n : nat)
    : Prop :=
  forall note id, ref note = Some id ->
    id < n /\ forall t, t ∈ l -> tid t = id -> callback t = CbReleaseKey note.

Lemma endedFrom_tid n d ids t :
  t ∈ endedFrom n d ids -> n <= tid t < n + length ids.
Proof.
  revert n. induction ids as [|o ids IH]; intros n; cbn.
  - by intros ?%elem_of_nil.
  - intros [->|Hin]%elem_of_cons; [cbn; lia|].
    apply IH in Hin. lia.
Qed.

Lemma pianoOk_filter (R : Timer -> Prop) `{!forall x, Decision (R x)}
    ref l n :
  pianoOk ref l n -> pianoOk ref (filter R l) n.
Proof.
  intros Hl note id Href. destruct (Hl note id Href) as [? Hcb].
  split; [done|]. intros t [_ Hin]%list_elem_of_filter. by apply Hcb.
Qed.

Lemma pianoOk_snoc ref l n d cb :
  pianoOk ref l n ->
  pianoOk ref (l ++ [ {| tid := n; due := d; callback := cb |} ]) (S n).
Proof.
  intros Hl note id Href. destruct (Hl note id Href) as [? Hcb].
  split; [lia|]. intros t [Hin|Hin]%elem_of_app; [by apply Hcb|].
  apply list_elem_of_singleton in Hin as ->. cbn. lia.
Qed.

Lemma pianoOk_ended ref l n d ids :
  pianoOk ref l n -> pianoOk ref (l ++ endedFrom n d ids) (n + length ids).
Proof.
  intros Hl note id Href. destruct (Hl note id Href) as [? Hcb].
  split; [lia|]. intros t [Hin|Hin]%elem_of_app; [by apply Hcb|].
  apply endedFrom_tid in Hin. lia.
Qed.

Lemma pianoOk_press ref l n d note :
  idsOk l n -> pianoOk ref l n ->
  pianoOk (fun k => if decide (k = note) then Some n else ref k)
    (l ++ [ {| tid := n; due := d; callback := CbReleaseKey note |} ]) (S n).
Proof.
  intros (_ & Hall & _) Hl k id Href.
  rewrite Forall_forall in Hall.
  destruct (decide (k = note)) as [->|Hne].
  - injection Href as <-. split; [lia|].
    intros t [Hin|Hin]%elem_of_app.
    + specialize (Hall t Hin). lia.
    + by apply list_elem_of_singleton in Hin as ->.
  - destruct (Hl k id Href) as [? Hcb]. split; [lia|].
    intros t [Hin|Hin]%elem_of_app; [by apply Hcb|].
    apply list_elem_of_singleton in Hin as ->. cbn. lia.
Qed.

Definition pianoTimers (w : World) : Prop :=
  pianoOk (pressTimeoutRef (piano w)) (pending w) (nextTimerId (loop w)).

Ltac po :=
  repeat first
    [ assumption
    | apply pianoOk_snoc
    | apply pianoOk_ended
    | apply pianoOk_filter ].

Lemma act_pianoTimers w w' :
  act w w' -> timerIds w -> pianoTimers w -> pianoTimers w'.
Proof.
  unfold pianoTimers, timerIds, pending.
  destruct 1 as [w t x Hnext| | | | | | | ]; intros Hids Hp.
  - unfold fire. destruct t as [id0 due0 cb]. callback_cases cb w; norm; po.
  - exact Hp.
  - norm; po.
  - handler_cases; norm. apply pianoOk_press; [ids|po].
  - handler_cases; norm; po.
  - handler_cases; norm; po.
  - exact Hp.
  - handler_cases; norm; po.
Qed.

(** *** One token carries the round through its phases *)

Lemma count_ended P n d ids :
  (forall o, P (CbOnEnded o) = false) -> count P (endedFrom n d ids) = 0.
Proof.
  intros HP. revert n. induction ids as [|o ids IH]; intros n; [done|].
  change (endedFrom n d (o :: ids))
    with ({| tid := n; due := d; callback := CbOnEnded o |}
          :: endedFrom (S n) d ids).
  rewrite count_cons. cbn [callback]. by rewrite HP, IH.
Qed.

Lemma count_primes_ended n d ids : count primes (endedFrom n d ids) = 0.
Proof. by apply count_ended. Qed.

Lemma count_judges_ended n d ids : count judges (endedFrom n d ids) = 0.
Proof. by apply count_ended. Qed.

Lemma count_filter_keep P (R : Timer -> Prop) `{!forall x, Decision (R x)} l :
  (forall t, t ∈ l -> ~ R t -> P (callback t) = false) ->
  count P (filter R l) = count P l.
Proof.
  induction l as [|t l IH]; intros Hl; [done|].
  rewrite filter_cons. destruct (decide (R t)) as [HR|HR].
  - rewrite !count_cons, IH; [done|]. intros t' Hin. apply Hl. by right.
  - rewrite count_cons, IH.
    + rewrite (Hl t); [done|by left|done].
    + intros t' Hin. apply Hl. by right.
Qed.

(** Clearing a key's release timer takes no other timer away. *)
Lemma count_press P ref l n note :
  (forall k, P (CbReleaseKey k) = false) ->
  pianoOk ref l n ->
  count P (filter (fun t => ~ cleared (ref note) (tid t)) l) = count P l.
Proof.
  intros HP Hl. apply count_filter_keep. intros t Hin Hc.
  apply dec_stable in Hc as [Href _].
  destruct (Hl note (tid t) Href) as [_ Hcb].
  by rewrite (Hcb t Hin eq_refl).
Qed.

Definition tokensP (m : bool) (st : Status.t) (l : list Timer) : Prop :=
  let nP := count primes l in
  let nJ := count judges l in
  if m then
    match st with
    | Status.guessing => nP = 0 /\ nJ = 0
    | Status.feedback => nP = 0 /\ nJ = 1
    | _ => nP = 1 /\ nJ = 0
    end
  else nP + nJ <= 1.

Definition tokensOk (w : World) : Prop :=
  tokensP (mounted w) (status (game w)) (pending w).

Ltac counts :=
  rewrite ?count_app, ?count_cons, ?count_nil, ?count_primes_ended,
    ?count_judges_ended; cbn [primes judges callback].

(** Bound the count over a filtered queue by the count over the queue. *)
Ltac shrink :=
  repeat match goal with
         | |- context [count ?P (filter ?R ?l)] =>
             let H := fresh "Hle" in
             pose proof (count_filter_le P R l) as H;
             let c := fresh "c" in
             set (c := count P (filter R l)) in *; clearbody c
         | _ : context [count ?P (filter ?R ?l)] |- _ =>
             let H := fresh "Hle" in
             pose proof (count_filter_le P R l) as H;
             let c := fresh "c" in
             set (c := count P (filter R l)) in *; clearbody c
         end.

Ltac tok w :=
  cbn [primes judges] in *;
  repeat match goal with
         | oc : OnComplete |- _ => destruct oc
         end;
  destruct (status (game w)); lia.

Lemma act_tokensOk w w' :
  act w w' -> timerIds w -> handles w -> pianoTimers w ->
  tokensOk w -> tokensOk w'.
Proof.
  unfold tokensOk, pianoTimers, handles, timerIds, pending.
  destruct 1 as [w t x Hnext| | | | | | | ];
    intros (_ & _ & Hnd) Hh Hp Htok.
  - apply nextTimer_elem in Hnext. unfold pending in Hnext.
    pose proof (count_remove primes _ _ Hnd Hnext) as HP.
    pose proof (count_remove judges _ _ Hnd Hnext) as HJ.
    unfold fire. destruct t as [id0 due0 cb]. cbn [tid callback] in *.
    by_mounted w; callback_cases cb w; norm; unfold tokensP in *; counts;
      try solve [tok w].
    + destruct (Hh _ h Hnext eq_refl) as (p & Hp' & _).
      cbn in Hp0. congruence.
    + clear HP HJ. shrink. tok w.
    + clear HP HJ. shrink. tok w.
  - exact Htok.
  - by_mounted w; norm; unfold tokensP in *; counts; tok w.
  - by_mounted w; [|done]. handler_cases; norm; unfold tokensP in *; counts.
    rewrite !(count_press _ _ _ _ _ (fun _ => eq_refl) Hp). tok w.
  - by_mounted w; [|done]. handler_cases; norm; unfold tokensP in *; counts.
    all: match goal with Hs : status _ = _ |- _ => rewrite Hs in Htok end.
    all: lia.
  - by_mounted w; [|done]. handler_cases; norm; unfold tokensP in *; counts.
    all: tok w.
  - by_mounted w; [|done]. norm. exact Htok.
  - by_mounted w; [|done]. handler_cases; norm; unfold tokensP in *; counts.
    shrink. tok w.
Qed.

(** *** Score, round and the values a pending verdict captured *)

Definition verdictOk (rnd sc : nat) (t : Timer) : Prop :=
  match callback t with
  | CbFeedbackDone c r s => r = rnd /\ s + (if c then 1 else 0) = sc
  | _ => True
  end.

Lemma verdictOk_ended rnd sc n d ids :
  Forall (verdictOk rnd sc) (endedFrom n d ids).
Proof.
  apply Forall_forall. intros t [o Ht]%endedFrom_callback.
  unfold verdictOk. by rewrite Ht.
Qed.

Lemma verdictOk_none rnd sc l :
  count judges l = 0 -> Forall (verdictOk rnd sc) l.
Proof.
  intros Hz. apply Forall_forall. intros t Hin.
  pose proof (count_zero _ _ _ Hz Hin) as Hj. unfold verdictOk.
  by destruct (callback t).
Qed.

Lemma Forall_filter_keep {X} (P R : X -> Prop) `{!forall x, Decision (R x)}
    (xs : list X) :
  Forall P xs -> Forall P (filter R xs).
Proof.
  rewrite !Forall_forall. intros Hall x [_ Hin]%list_elem_of_filter. auto.
Qed.

Definition scoring (w : World) : Prop :=
  Forall (verdictOk (round (game w)) (score (game w))) (pending w)
  /\ score (game w) = correctCount (trace w)
  /\ guessesMade (trace w)
     + (if decide (status (game w) = Status.feedback) then 0 else 1)
     = round (game w)
  /\ 1 <= round (game w) <= totalRounds difficulty.

Ltac vs :=
  repeat first
    [ assumption
    | apply Forall_app_2
    | apply Forall_filter_keep
    | apply verdictOk_ended
    | apply Forall_singleton; exact I
    | apply Forall_nil_2 ].

Ltac sc w :=
  cbn [primes judges] in *;
  destruct (status (game w)) eqn:?;
  repeat case_decide; try discriminate;
  split_and!; vs; try lia.

Lemma act_scoring w w' :
  act w w' -> timerIds w -> tokensOk w -> scoring w -> scoring w'.
Proof.
  unfold scoring, tokensOk, timerIds, pending.
  destruct 1 as [w t x Hnext| | | | | | | ];
    intros (_ & _ & Hnd) Htok (Hv & Hs & Hg & Hr).
  - apply nextTimer_elem in Hnext. unfold pending in Hnext.
    pose proof (count_remove primes _ _ Hnd Hnext) as HP.
    pose proof (count_remove judges _ _ Hnd Hnext) as HJ.
    pose proof (proj1 (Forall_forall _ _) Hv _ Hnext) as Hcap.
    unfold fire. destruct t as [id0 due0 cb].
    cbn [tid callback verdictOk] in *.
    by_mounted w; callback_cases cb w; norm; unfold tokensP in *;
      try solve [sc w].
    destruct Hcap as [-> Hcap]. cbn [primes judges] in *.
    destruct (status (game w)) eqn:Hst; try lia.
    rewrite decide_True in Hg by done.
    split_and!; try done; try lia;
      try (rewrite decide_False by done; lia).
    apply Forall_app_2; [|by apply Forall_singleton].
    apply verdictOk_none. lia.
  - exact (conj Hv (conj Hs (conj Hg Hr))).
  - by_mounted w; norm; sc w.
  - by_mounted w; [|done]. handler_cases; norm; sc w.
  - by_mounted w; [|done]. handler_cases; norm; unfold tokensP in *.
    all: match goal with Hst : status _ = _ |- _ =>
           rewrite Hst in Htok, Hg; rewrite decide_False in Hg by done end.
    all: destruct Htok as [_ Hz].
    all: split_and!; try (cbn; lia);
           try (rewrite decide_True by done; cbn; lia).
    all: apply Forall_app_2;
           [by apply verdictOk_none|apply Forall_singleton; cbn; lia].
  - by_mounted w; [|done]. handler_cases; norm; sc w.
  - by_mounted w; [|done]. norm. exact (conj Hv (conj Hs (conj Hg Hr))).
  - by_mounted w; [|done]. handler_cases; norm; sc w.
Qed.

(** *** The audio context exists once a round has been primed *)

Definition audioOk (w : World) : Prop :=
  audioContext (audioContextRef (game w)) = None ->
  status (game w) = Status.initial /\ players w = [].

Lemma noteRef_none note duration w :
  audioContext (noteRef note duration w) = None ->
  audioContext (audioContextRef (game w)) = None.
Proof.
  unfold noteRef. by destruct (audioContext (audioContextRef (game w))).
Qed.

Lemma initRef_some w : audioContext (initRef w) <> None.
Proof.
  unfold initRef.
  by destruct (audioContext (audioContextRef (game w))) eqn:E; cbn;
    rewrite ?E.
Qed.

Ltac au Ha :=
  let Hnone := fresh "Hnone" in
  intros Hnone;
  repeat (apply noteRef_none in Hnone; cbn in Hnone;
          repeat (progress (unfold mounted in Hnone; cbn in Hnone));
          try match goal with
              | H : isPlaying (gameState (app _)) = _ |- _ =>
                  rewrite !H in Hnone; cbn in Hnone
              end);
  try (by apply initRef_some in Hnone);
  let Hst := fresh "Hst" in
  let Hps := fresh "Hps" in
  destruct (Ha Hnone) as [Hst Hps];
  try congruence;
  try (split; [done|]);
  try (rewrite Hps in *; done).

Lemma act_audioOk w w' : act w w' -> handles w -> audioOk w -> audioOk w'.
Proof.
  unfold audioOk, handles, pending.
  destruct 1 as [w t x Hnext| | | | | | | ]; intros Hh Ha.
  - apply nextTimer_elem in Hnext. unfold pending in Hnext.
    unfold fire. destruct t as [id0 due0 cb].
    by_mounted w; callback_cases cb w; norm; au Ha.
    all: try (destruct (Hh _ _ Hnext eq_refl) as (p' & Hp' & _);
              rewrite Hps in Hp'; done).
  - exact Ha.
  - norm; au Ha.
  - by_mounted w; [|done]. handler_cases; norm; au Ha.
  - by_mounted w; [|done]. handler_cases; norm; au Ha.
  - by_mounted w; [|done]. handler_cases; norm; au Ha.
  - by_mounted w; [|done]. norm; au Ha.
  - by_mounted w; [|done]. handler_cases; norm; au Ha.
Qed.

(** *** No pending timer is overdue *)

Definition timely (w : World) : Prop :=
  Forall (fun t => (now (loop w) <= due t)%Z) (pending w).

Lemma timely_ended clock n d ids :
  (0 <= d)%Z ->
  Forall (fun t => (clock <= due t)%Z) (endedFrom n (clock + d) ids).
Proof.
  intros Hd. revert n. induction ids as [|o ids IH]; intros n.
  - apply Forall_nil_2.
  - change (endedFrom n (clock + d) (o :: ids))
      with ({| tid := n; due := clock + d; callback := CbOnEnded o |}
            :: endedFrom (S n) (clock + d) ids).
    apply Forall_cons_2; [cbn; lia|apply IH].
Qed.

Lemma Qfloor_note : Qfloor (0.6 * 1000)%Q = 600%Z.
Proof. reflexivity. Qed.

Lemma Qfloor_target : Qfloor (1 * 1000)%Q = 1000%Z.
Proof. reflexivity. Qed.

Lemma Qfloor_key : Qfloor (0.3 * 1000)%Q = 300%Z.
Proof. reflexivity. Qed.

Ltac tm :=
  rewrite ?Qfloor_note, ?Qfloor_target, ?Qfloor_key;
  repeat first
    [ assumption
    | apply Forall_app_2
    | apply Forall_filter_keep
    | apply timely_ended; lia
    | apply Forall_singleton; cbn; lia
    | apply Forall_nil_2 ].

Lemma act_timely w w' : act w w' -> timely w -> timely w'.
Proof.
  unfold timely, pending.
  destruct 1 as [w t x Hnext|w dt Hdt Hall| | | | | | ]; intros Ht.
  - assert (Hmin : Forall (fun t' => (Z.max (now (loop w)) (due t)
                                      <= due t')%Z) (timers (loop w))).
    { apply Forall_forall. intros t' Hin.
      pose proof (nextTimer_min _ _ _ Hnext Hin).
      rewrite Forall_forall in Ht. specialize (Ht _ Hin). lia. }
    clear Ht Hnext.
    unfold fire. destruct t as [id0 due0 cb]. cbn [due] in Hmin.
    by_mounted w; callback_cases cb w; norm; tm.
  - exact Hall.
  - norm; tm.
  - by_mounted w; [|done]. handler_cases; norm; tm.
  - by_mounted w; [|done]. handler_cases; norm; tm.
  - by_mounted w; [|done]. handler_cases; norm; tm.
  - exact Ht.
  - by_mounted w; [|done]. handler_cases; norm; tm.
Qed.

(** *** The timeline of a sequence playback

    For the activation behind handle [h], started at [t0]: note [i] was
    triggered at [t0 + 700 i] for 600 ms, the pending continuation is due
    700 ms after the last note, and completion comes 600 ms after the
    continuation that found no note left. *)

Definition aboutHandle (h : nat) (o : Obs) : Prop :=
  match o with
  | SeqNote h' _ _ _ _ | SeqDone h' _ => h' = h
  | _ => False
  end.

Record seqAt (tr : list Obs) (l : list Timer) (h : nat) (p : Player)
    (t0 : Z) : Prop :=
  { sq_note : forall i n d t, SeqNote h i n d t ∈ tr ->
      i < index p /\ notes p !! i = Some n /\ d = 0.6%Q
      /\ t = (t0 + 700 * Z.of_nat i)%Z;
    sq_all : forall i, i < index p ->
      exists n, SeqNote h i n 0.6%Q (t0 + 700 * Z.of_nat i)%Z ∈ tr;
    sq_next : forall t oc, t ∈ l -> callback t = CbPlayNextNote h oc ->
      due t = (t0 + 700 * Z.of_nat (index p))%Z;
    sq_complete : forall t oc, t ∈ l -> callback t = CbOnComplete h oc ->
      due t = (t0 + 700 * Z.of_nat (index p) + 600)%Z
      /\ length (notes p) <= index p;
    sq_done : forall t, SeqDone h t ∈ tr ->
      t = (t0 + 700 * Z.of_nat (index p) + 600)%Z
      /\ length (notes p) <= index p;
    sq_index : 1 <= index p <= length (notes p) }.

Definition seqOkP (tr : list Obs) (l : list Timer) (ps : list Player)
    : Prop :=
  (forall h p, ps !! h = Some p -> exists t0, seqAt tr l h p t0)
  /\ (forall o h, o ∈ tr -> aboutHandle h o -> h < length ps).

(** The continuations in [l'] were already in [l]. *)
Definition keeps (l l' : list Timer) : Prop :=
  forall t h, t ∈ l' -> handleOf (callback t) = Some h -> t ∈ l.

(** [tr'] extends [tr] without a word about any sequence. *)
Definition sameSeq (tr tr' : list Obs) : Prop :=
  (forall o h, o ∈ tr' -> aboutHandle h o -> o ∈ tr)
  /\ (forall o, o ∈ tr -> o ∈ tr').

Lemma keeps_refl l : keeps l l.
Proof. by intros t h Hin _. Qed.

Lemma keeps_filter (R : Timer -> Prop) `{!forall x, Decision (R x)} l l' :
  keeps l l' -> keeps l (filter R l').
Proof. intros Hk t h [_ Hin]%list_elem_of_filter. by apply Hk. Qed.

Lemma keeps_ended l l' n d ids :
  keeps l l' -> keeps l (l' ++ endedFrom n d ids).
Proof.
  intros Hk t h [Hin|Hin]%elem_of_app; [by apply Hk|].
  apply endedFrom_callback in Hin as [o ->]. done.
Qed.

Lemma keeps_snoc l l' id d cb :
  handleOf cb = None -> keeps l l' ->
  keeps l (l' ++ [ {| tid := id; due := d; callback := cb |} ]).
Proof.
  intros Hcb Hk t h [Hin|Hin]%elem_of_app; [by apply Hk|].
  apply list_elem_of_singleton in Hin as ->. cbn. by rewrite Hcb.
Qed.

Lemma sameSeq_refl tr : sameSeq tr tr.
Proof. by split. Qed.

Lemma sameSeq_cons tr tr' o :
  (forall h, ~ aboutHandle h o) -> sameSeq tr tr' -> sameSeq tr (o :: tr').
Proof.
  intros Ho [H1 H2]. split.
  - intros o' h [->|Hin]%elem_of_cons Hab; [by destruct (Ho h)|eauto].
  - intros o' Hin. right. auto.
Qed.

Lemma seqAt_frame tr tr' l l' h p t0 :
  seqAt tr l h p t0 ->
  (forall o, o ∈ tr' -> aboutHandle h o -> o ∈ tr) ->
  (forall o, o ∈ tr -> o ∈ tr') ->
  (forall t, t ∈ l' -> handleOf (callback t) = Some h -> t ∈ l) ->
  seqAt tr' l' h p t0.
Proof.
  intros [Hn Ha Hx Hc Hd Hi] Hs1 Hs2 Hk. split; [..|done].
  - intros i n d t Hin. apply Hn. by apply Hs1.
  - intros i Hlt. destruct (Ha i Hlt) as [n Hin]. exists n. auto.
  - intros t oc Hin Hcb. apply (Hx t oc); [|done].
    apply Hk; [done|by rewrite Hcb].
  - intros t oc Hin Hcb. apply (Hc t oc); [|done].
    apply Hk; [done|by rewrite Hcb].
  - intros t Hin. apply Hd. by apply Hs1.
Qed.

Lemma seqOkP_frame tr tr' l l' ps :
  seqOkP tr l ps -> sameSeq tr tr' -> keeps l l' -> seqOkP tr' l' ps.
Proof.
  intros [Hps Htr] [Hs1 Hs2] Hk. split.
  - intros h p Hp. destruct (Hps h p Hp) as [t0 Ht0].
    exists t0. eapply seqAt_frame; eauto.
  - intros o h Hin Hab. eapply Htr; [|done]. by eapply Hs1.
Qed.

(** A continuation of [h] triggers the next note. *)
Lemma seqOkP_note tr l l0 ps h p n t oc id :
  seqOkP tr l ps ->
  ps !! h = Some p -> notes p !! index p = Some n ->
  t ∈ l -> callback t = CbPlayNextNote h oc ->
  keeps l l0 -> noHandle h l0 ->
  seqOkP (SeqNote h (index p) n 0.6%Q (due t) :: tr)
    (l0 ++ [ {| tid := id; due := due t + 700;
                callback := CbPlayNextNote h oc |} ])
    (<[h := {| notes := notes p; index := S (index p);
               timeoutId := Some id |}]> ps).
Proof.
  intros [Hps Htr] Hp Hn Hin Hcb Hk Hno.
  pose proof (lookup_lt_Some _ _ _ Hp) as Hlt.
  pose proof (lookup_lt_Some _ _ _ Hn) as Hlen.
  split.
  - intros h' p' Hp'. destruct (decide (h' = h)) as [->|Hne].
    + rewrite list_lookup_insert_eq in Hp' by done. injection Hp' as <-.
      destruct (Hps h p Hp) as [t0 [Sn Sa Sx Sc Sd Si]]. exists t0.
      pose proof (Sx t oc Hin Hcb) as Hdue.
      split; cbn [index notes].
      * intros i n' d t' [Heq|Hold]%elem_of_cons.
        -- injection Heq as -> -> -> ->. split_and!; [lia|done|done|lia].
        -- destruct (Sn _ _ _ _ Hold) as (? & ? & ? & ?).
           split_and!; [lia|done..].
      * intros i Hi. destruct (decide (i = index p)) as [->|Hi'].
        -- exists n. rewrite <- Hdue. by left.
        -- destruct (Sa i) as [n' Hn']; [lia|]. exists n'. by right.
      * intros t' oc' [Hin'|Hin']%elem_of_app Hcb'.
        -- destruct (Hno t' Hin'). by rewrite Hcb'.
        -- apply list_elem_of_singleton in Hin' as ->. cbn. lia.
      * intros t' oc' [Hin'|Hin']%elem_of_app Hcb'.
        -- destruct (Hno t' Hin'). by rewrite Hcb'.
        -- by apply list_elem_of_singleton in Hin' as ->.
      * intros t' [Heq|Hold]%elem_of_cons; [done|].
        destruct (Sd _ Hold). lia.
      * lia.
    + rewrite list_lookup_insert_ne in Hp' by done.
      destruct (Hps h' p' Hp') as [t0 St]. exists t0.
      eapply seqAt_frame; [exact St|..].
      * intros o [->|Hold]%elem_of_cons Hab; [by destruct Hne|done].
      * intros o Hold. by right.
      * intros t' [Hin'|Hin']%elem_of_app Hcb'; [by eapply Hk|].
        apply list_elem_of_singleton in Hin' as ->. cbn in Hcb'. congruence.
  - rewrite length_insert.
    intros o h' [->|Hold]%elem_of_cons Hab; [by rewrite <- Hab|eauto].
Qed.

(** A continuation of [h] finds no note left and schedules completion. *)
Lemma seqOkP_last tr l l0 ps h p t oc id :
  seqOkP tr l ps ->
  ps !! h = Some p -> notes p !! index p = None ->
  t ∈ l -> callback t = CbPlayNextNote h oc ->
  keeps l l0 -> noHandle h l0 ->
  seqOkP tr
    (l0 ++ [ {| tid := id; due := due t + 600;
                callback := CbOnComplete h oc |} ])
    (<[h := {| notes := notes p; index := index p;
               timeoutId := Some id |}]> ps).
Proof.
  intros [Hps Htr] Hp Hn Hin Hcb Hk Hno.
  pose proof (lookup_lt_Some _ _ _ Hp) as Hlt.
  apply lookup_ge_None in Hn.
  split.
  - intros h' p' Hp'. destruct (decide (h' = h)) as [->|Hne].
    + rewrite list_lookup_insert_eq in Hp' by done. injection Hp' as <-.
      destruct (Hps h p Hp) as [t0 [Sn Sa Sx Sc Sd Si]]. exists t0.
      pose proof (Sx t oc Hin Hcb) as Hdue.
      split; cbn [index notes]; [done|done|..|done|done].
      * intros t' oc' [Hin'|Hin']%elem_of_app Hcb'.
        -- destruct (Hno t' Hin'). by rewrite Hcb'.
        -- by apply list_elem_of_singleton in Hin' as ->.
      * intros t' oc' [Hin'|Hin']%elem_of_app Hcb'.
        -- destruct (Hno t' Hin'). by rewrite Hcb'.
        -- apply list_elem_of_singleton in Hin' as ->. cbn. split; lia.
    + rewrite list_lookup_insert_ne in Hp' by done.
      destruct (Hps h' p' Hp') as [t0 St]. exists t0.
      eapply seqAt_frame; [exact St|done|done|].
      intros t' [Hin'|Hin']%elem_of_app Hcb'; [by eapply Hk|].
      apply list_elem_of_singleton in Hin' as ->. cbn in Hcb'. congruence.
  - rewrite length_insert. eauto.
Qed.

(** The completion of [h] runs. *)
Lemma seqOkP_done tr l l0 ps h p t oc :
  seqOkP tr l ps ->
  ps !! h = Some p ->
  t ∈ l -> callback t = CbOnComplete h oc ->
  keeps l l0 ->
  seqOkP (SeqDone h (due t) :: tr) l0 ps.
Proof.
  intros [Hps Htr] Hp Hin Hcb Hk.
  pose proof (lookup_lt_Some _ _ _ Hp) as Hlt.
  split.
  - intros h' p' Hp'. destruct (decide (h' = h)) as [->|Hne].
    + assert (p' = p) as -> by congruence.
      destruct (Hps h p Hp) as [t0 [Sn Sa Sx Sc Sd Si]]. exists t0.
      destruct (Sc t oc Hin Hcb) as [Hdue Hlen].
      split; [..|done].
      * intros i n d t' [Heq|Hold]%elem_of_cons; [done|eauto].
      * intros i Hi. destruct (Sa i Hi) as [n Hn]. exists n. by right.
      * intros t' oc' Hin' Hcb'. apply (Sx t' oc'); [|done].
        apply (Hk t' h); [done|by rewrite Hcb'].
      * intros t' oc' Hin' Hcb'. apply (Sc t' oc'); [|done].
        apply (Hk t' h); [done|by rewrite Hcb'].
      * intros t' [Heq|Hold]%elem_of_cons; [|eauto].
        injection Heq as ->. done.
    + destruct (Hps h' p' Hp') as [t0 St]. exists t0.
      eapply seqAt_frame; [exact St|..].
      * intros o [->|Hold]%elem_of_cons Hab; [by destruct Hne|done].
      * intros o Hold. by right.
      * intros t' Hin' Hcb'. by eapply Hk.
  - intros o h' [->|Hold]%elem_of_cons Hab; [by rewrite <- Hab|eauto].
Qed.

(** A new activation triggers its first note at [clock]. *)
Lemma seqOkP_start tr l l0 ps ns n0 rest clock oc id :
  seqOkP tr l ps -> handlesOk l ps ->
  ns = n0 :: rest ->
  keeps l l0 ->
  seqOkP (SeqNote (length ps) 0 n0 0.6%Q clock :: tr)
    (l0 ++ [ {| tid := id; due := clock + 700;
                callback := CbPlayNextNote (length ps) oc |} ])
    (<[length ps := {| notes := ns; index := 1; timeoutId := Some id |}]>
       (ps ++ [ {| notes := ns; index := 0; timeoutId := None |} ])).
Proof.
  intros [Hps Htr] Hh -> Hk.
  assert (Hno : noHandle (length ps) l0).
  { intros t Hin Hcb. apply (noHandle_fresh _ _ Hh t); [|done]. eauto. }
  split.
  - intros h' p' Hp'. destruct (decide (h' = length ps)) as [->|Hne].
    + rewrite list_lookup_insert_eq in Hp' by (rewrite length_app; cbn; lia).
      injection Hp' as <-. exists clock. split; cbn [index notes].
      * intros i n' d t' [Heq|Hold]%elem_of_cons.
        -- injection Heq as -> -> -> ->. split_and!; [lia|done|done|lia].
        -- specialize (Htr _ (length ps) Hold eq_refl). lia.
      * intros i Hi. assert (i = 0) as -> by lia. exists n0.
        replace (clock + 700 * Z.of_nat 0)%Z with clock by lia. by left.
      * intros t' oc' [Hin'|Hin']%elem_of_app Hcb'.
        -- destruct (Hno t' Hin'). by rewrite Hcb'.
        -- apply list_elem_of_singleton in Hin' as ->. cbn. lia.
      * intros t' oc' [Hin'|Hin']%elem_of_app Hcb'.
        -- destruct (Hno t' Hin'). by rewrite Hcb'.
        -- by apply list_elem_of_singleton in Hin' as ->.
      * intros t' [Heq|Hold]%elem_of_cons; [done|].
        specialize (Htr _ (length ps) Hold eq_refl). lia.
      * cbn. lia.
    + rewrite list_lookup_insert_ne in Hp' by done.
      assert (ps !! h' = Some p') as Hp.
      { apply lookup_app_Some in Hp' as [?|[Hge Hp']]; [done|].
        apply list_lookup_singleton_Some in Hp' as [? _]. lia. }
      destruct (Hps h' p' Hp) as [t0 St]. exists t0.
      eapply seqAt_frame; [exact St|..].
      * intros o [->|Hold]%elem_of_cons Hab; [by destruct Hne|done].
      * intros o Hold. by right.
      * intros t' [Hin'|Hin']%elem_of_app Hcb'; [by eapply Hk|].
        apply list_elem_of_singleton in Hin' as ->. cbn in Hcb'. congruence.
  - rewrite length_insert, length_app. cbn.
    intros o h' [->|Hold]%elem_of_cons Hab.
    + cbn in Hab. lia.
    + specialize (Htr _ _ Hold Hab). lia.
Qed.

Definition seqOk (w : World) : Prop :=
  seqOkP (trace w) (pending w) (players w).

Ltac ss :=
  repeat (apply sameSeq_cons; [by intros ? ?|]); apply sameSeq_refl.

Ltac ks :=
  repeat first
    [ apply keeps_refl
    | apply keeps_ended
    | apply keeps_filter
    | apply keeps_snoc; [reflexivity|] ].

Ltac frame H := eapply seqOkP_frame; [exact H|ss|ks].

Lemma act_seqOk w w' :
  act w w' -> handles w -> timely w -> seqOk w -> seqOk w'.
Proof.
  unfold seqOk, timely, handles, pending.
  destruct 1 as [w t x Hnext| | | | | | | ]; intros Hh Ht Hs.
  - apply nextTimer_elem in Hnext. unfold pending in Hnext.
    assert (Hmax : Z.max (now (loop w)) (due t) = due t).
    { rewrite Forall_forall in Ht. specialize (Ht _ Hnext). lia. }
    unfold fire. destruct t as [id0 due0 cb]. cbn [due] in Hmax.
    by_mounted w; callback_cases cb w; norm; rewrite ?Hmax;
      try solve [frame Hs].
    all: try (eapply (seqOkP_note _ (timers (loop w)) _ _ h _ _
                {| tid := id0; due := due0;
                   callback := CbPlayNextNote h oc |} oc _
                Hs Hp Hn Hnext eq_refl);
              [ks|apply noHandle_ended;
                  exact (noHandle_dequeue _ _ _ _ Hh Hnext eq_refl)]).
    all: try (eapply (seqOkP_last _ (timers (loop w)) _ _ h _
                {| tid := id0; due := due0;
                   callback := CbPlayNextNote h oc |} oc _
                Hs Hp Hn Hnext eq_refl);
              [ks|exact (noHandle_dequeue _ _ _ _ Hh Hnext eq_refl)]).
    all: try (destruct (Hh _ h Hnext eq_refl) as (p & Hp & _);
              eapply (seqOkP_done _ (timers (loop w)) _ _ h p
                {| tid := id0; due := due0; callback := CbOnComplete h _ |}
                _ Hs Hp Hnext eq_refl); ks).
    all: eapply (seqOkP_start (Primed :: trace w) (timers (loop w)));
      [frame Hs|exact Hh|reflexivity|ks].
  - exact Hs.
  - norm. frame Hs.
  - by_mounted w; [|done]. handler_cases; norm; frame Hs.
  - by_mounted w; [|done]. handler_cases; norm; frame Hs.
  - by_mounted w; [|done]. handler_cases; norm.
    all: eapply (seqOkP_start (trace w) (timers (loop w)));
      [exact Hs|exact Hh|reflexivity|ks].
  - exact Hs.
  - by_mounted w; [|done]. handler_cases; norm; frame Hs.
Qed.

(** ** What holds in every reachable world *)

Record Inv (w : World) : Prop :=
  { inv_ids : timerIds w;
    inv_handles : handles w;
    inv_piano : pianoTimers w;
    inv_tokens : tokensOk w;
    inv_scoring : scoring w;
    inv_audio : audioOk w;
    inv_timely : timely w;
    inv_seq : seqOk w }.

Lemma Inv_mount t0 : Inv (mountGameScreen t0).
Proof.
  split.
  - split_and!; cbn; [lia| |].
    + apply Forall_singleton. cbn. lia.
    + apply NoDup_singleton.
  - intros t h ->%list_elem_of_singleton. done.
  - intros note id. done.
  - unfold tokensOk, tokensP. cbn. by rewrite !count_cons, count_nil.
  - split_and!; cbn; [by apply Forall_singleton|done|done|lia|].
    unfold totalRounds. case_decide; lia.
  - done.
  - apply Forall_singleton. cbn. lia.
  - split; [done|]. by intros o h ?%elem_of_nil.
Qed.

Lemma act_Inv w w' : act w w' -> Inv w -> Inv w'.
Proof.
  intros Hact [? ? ? ? ? ? ? ?]. split.
  - by eapply act_timerIds.
  - by eapply act_handles.
  - by eapply act_pianoTimers.
  - by eapply act_tokensOk.
  - by eapply act_scoring.
  - by eapply act_audioOk.
  - by eapply act_timely.
  - by eapply act_seqOk.
Qed.

Lemma acts_Inv w w' : rtc act w w' -> Inv w -> Inv w'.
Proof. induction 1; eauto using act_Inv. Qed.

Lemma steps_acts w es w' :
  steps difficulty arduinoPort w es w' -> rtc act w w'.
Proof.
  induction 1 as [|w e w' es w'' Hstep _ IH]; [reflexivity|].
  etrans; [by eapply step_acts|done].
Qed.

Lemma steps_app w es w' es' w'' :
  steps difficulty arduinoPort w es w' ->
  steps difficulty arduinoPort w' es' w'' ->
  steps difficulty arduinoPort w (es ++ es') w''.
Proof.
  induction 1 as [|? ? ? ? ? Hstep _ IH]; [done|].
  intros Hrest. cbn. econstructor; [exact Hstep|by apply IH].
Qed.

Lemma reachable_Inv w : reachable difficulty arduinoPort w -> Inv w.
Proof.
  intros (t0 & es & Hsteps). eapply acts_Inv; [by eapply steps_acts|].
  apply Inv_mount.
Qed.

Lemma reachable_steps w es w' :
  reachable difficulty arduinoPort w ->
  steps difficulty arduinoPort w es w' ->
  reachable difficulty arduinoPort w'.
Proof.
  intros (t0 & es0 & H0) H1. exists t0, (es0 ++ es). by eapply steps_app.
Qed.

(** ** A cancelled playback stays silent *)

(** Handle [h] has no continuation pending. *)
Definition dead (h : nat) (w : World) : Prop :=
  h < length (players w) /\ noHandle h (pending w).

Ltac nh' :=
  repeat first
    [ assumption
    | apply noHandle_ended
    | apply noHandle_filter
    | apply noHandle_snoc; [cbn; intros [= ?]; first [lia|congruence]|] ].

Ltac old_obs :=
  let o := fresh "o" in
  let Hin := fresh "Hin" in
  let Hab := fresh "Hab" in
  intros o Hin Hab;
  repeat (apply elem_of_cons in Hin as [->|Hin];
          [cbn in Hab; first [done|lia|congruence]|]);
  exact Hin.

Ltac dd :=
  split_and!;
    [ rewrite ?length_insert, ?length_app; cbn; lia
    | nh'
    | rewrite ?list_lookup_insert_ne by first [lia|congruence];
      rewrite ?lookup_app_l by lia; reflexivity
    | old_obs ].

Lemma act_dead k w w' :
  act w w' -> dead k w ->
  dead k w'
  /\ players w' !! k = players w !! k
  /\ (forall o, o ∈ trace w' -> aboutHandle k o -> o ∈ trace w).
Proof.
  unfold dead, pending.
  destruct 1 as [w t x Hnext| | | | | | | ]; intros [Hlt Hno].
  - apply nextTimer_elem in Hnext. unfold pending in Hnext.
    pose proof (Hno _ Hnext) as Hne.
    unfold fire. destruct t as [id0 due0 cb]. cbn [callback] in Hne.
    by_mounted w; callback_cases cb w; norm; cbn in Hne.
    all: dd.
  - by split_and!.
  - norm. dd.
  - by_mounted w; [|done]. handler_cases; norm; dd.
  - by_mounted w; [|done]. handler_cases; norm; dd.
  - by_mounted w; [|done]. handler_cases; norm; dd.
  - by split_and!.
  - by_mounted w; [|done]. handler_cases; norm; dd.
Qed.

(** ** After the game screen is gone and no token is left *)

Definition over (w : World) : Prop :=
  mounted w = false
  /\ count primes (pending w) = 0 /\ count judges (pending w) = 0.

Lemma act_over w w' :
  act w w' -> over w ->
  over w'
  /\ primings (trace w') = primings (trace w)
  /\ endings (trace w') = endings (trace w)
  /\ app w' = app w
  /\ status (game w') = status (game w).
Proof.
  unfold over, pending.
  destruct 1 as [w t x Hnext| | | | | | | ]; intros (Hm & HP & HJ).
  - apply nextTimer_elem in Hnext. unfold pending in Hnext.
    pose proof (count_zero _ _ _ HP Hnext) as Hpr.
    pose proof (count_zero _ _ _ HJ Hnext) as Hju.
    unfold mounted in Hm.
    unfold fire. destruct t as [id0 due0 cb]. cbn [callback] in Hpr, Hju.
    callback_cases cb w; try discriminate;
      try (destruct oc; try discriminate); norm; counts.
    all: shrink; split_and!; try done; lia.
  - by split_and!.
  - norm. counts. unfold mounted in Hm. rewrite Hm. split_and!; try done; lia.
  - congruence.
  - congruence.
  - congruence.
  - congruence.
  - congruence.
Qed.

Lemma acts_over w w' :
  rtc act w w' -> over w ->
  over w'
  /\ primings (trace w') = primings (trace w)
  /\ endings (trace w') = endings (trace w)
  /\ app w' = app w
  /\ status (game w') = status (game w).
Proof.
  induction 1 as [|w w1 w2 Hact _ IH]; [done|].
  intros Ho.
  destruct (act_over _ _ Hact Ho) as (Ho1 & Hp1 & He1 & Ha1 & Hs1).
  destruct (IH Ho1) as (Ho2 & Hp2 & He2 & Ha2 & Hs2).
  split_and!; [done|congruence..].
Qed.





(** ** Cancelling *)

(** Clearing the timer an activation remembers leaves it no continuation. *)
Lemma cleared_noHandle l ps n h p :
  idsOk l n -> handlesOk l ps -> ps !! h = Some p ->
  noHandle h (filter (fun t => ~ cleared (timeoutId p) (tid t)) l).
Proof.
  intros (_ & Hall & _) Hh Hp t [Hkeep Hin]%list_elem_of_filter Hcb.
  destruct (Hh t h Hin Hcb) as (p' & Hp' & Hid).
  assert (p' = p) as -> by congruence.
  rewrite Forall_forall in Hall. specialize (Hall t Hin).
  apply Hkeep. split; [done|lia].
Qed.

Lemma cleanup_dead h p w :
  timerIds w -> handles w -> players w !! h = Some p ->
  dead h (cleanup h w)
  /\ players (cleanup h w) = players w /\ trace (cleanup h w) = trace w.
Proof.
  intros Hids Hh Hp. unfold cleanup. rewrite Hp, clearIfSet_eq.
  unfold dead, pending. cbn. split_and!; [|by eapply cleared_noHandle|done..].
  by eapply lookup_lt_Some.
Qed.

Lemma acts_dead k w w' :
  rtc act w w' -> dead k w ->
  dead k w'
  /\ players w' !! k = players w !! k
  /\ (forall o, o ∈ trace w' -> aboutHandle k o -> o ∈ trace w).
Proof.
  induction 1 as [|w w1 w2 Hact _ IH]; [done|].
  intros Hd. destruct (act_dead _ _ _ Hact Hd) as (Hd1 & Hp1 & Ht1).
  destruct (IH Hd1) as (Hd2 & Hp2 & Ht2).
  split_and!; [done|congruence|auto].
Qed.


(** ** Concrete runs *)

Lemma runTimers_steps n x w :
  (0 <= x)%Q -> (x < 1)%Q ->
  exists es, steps difficulty arduinoPort w es (runTimers difficulty n x w).
Proof.
  intros H0 H1. revert w. induction n as [|n IH]; intros w; cbn.
  - exists []. constructor.
  - destruct (nextTimer w) as [t|] eqn:Hnext.
    + destruct (IH (fire difficulty t x w)) as [es Hes].
      exists (TimerFires x :: es). econstructor; [|exact Hes].
      by apply step_timer.
    + exists []. constructor.
Qed.

Lemma reachable_runTimers n x w :
  (0 <= x)%Q -> (x < 1)%Q ->
  reachable difficulty arduinoPort w ->
  reachable difficulty arduinoPort (runTimers difficulty n x w).
Proof.
  intros H0 H1 Hw. destruct (runTimers_steps n x w H0 H1) as [es Hes].
  by eapply reachable_steps.
Qed.

Lemma reachable_step w e w' :
  reachable difficulty arduinoPort w ->
  step difficulty arduinoPort w e w' ->
  reachable difficulty arduinoPort w'.
Proof.
  intros Hw Hstep. eapply reachable_steps; [exact Hw|].
  econstructor; [exact Hstep|constructor].
Qed.

Lemma reachable_mount t0 :
  reachable difficulty arduinoPort (mountGameScreen t0).
Proof. exists t0, []. constructor. Qed.


(** ** How the round counter moves *)

(** The round and a feedback phase are left as they were. *)
Definition roundKept (w w' : World) : Prop :=
  round (game w') = round (game w)
  /\ (status (game w) = Status.feedback ->
      status (game w') = Status.feedback).

(** The feedback phase gave way to the next round. *)
Definition roundAdvanced (w w' : World) : Prop :=
  status (game w) = Status.feedback
  /\ status (game w') = Status.initial
  /\ round (game w') = round (game w) + 1.

Ltac rk w :=
  cbn [primes judges] in *;
  repeat match goal with
         | oc : OnComplete |- _ => destruct oc
         end;
  left; (split; [reflexivity|]);
  let Hst := fresh "Hst" in
  intros Hst; try exact Hst; try discriminate;
  rewrite Hst in *; lia.

Lemma act_round w w' :
  act w w' -> timerIds w -> tokensOk w -> scoring w ->
  roundKept w w' \/ roundAdvanced w w'.
Proof.
  unfold scoring, tokensOk, timerIds, pending, roundKept, roundAdvanced.
  destruct 1 as [w t x Hnext| | | | | | | ];
    intros (_ & _ & Hnd) Htok (Hv & Hs & Hg & Hr).
  - apply nextTimer_elem in Hnext. unfold pending in Hnext.
    pose proof (count_remove primes _ _ Hnd Hnext) as HP.
    pose proof (count_remove judges _ _ Hnd Hnext) as HJ.
    pose proof (proj1 (Forall_forall _ _) Hv _ Hnext) as Hcap.
    unfold fire. destruct t as [id0 due0 cb].
    cbn [tid callback verdictOk] in *.
    by_mounted w; callback_cases cb w; norm; unfold tokensP in *;
      try solve [rk w].
    destruct Hcap as [-> _]. cbn [primes judges] in *. right.
    destruct (status (game w)); first [lia|by split_and!].
  - left. by split.
  - left. norm. by split.
  - left. by_mounted w; [|done]. handler_cases; norm; by split.
  - left. by_mounted w; [|done]. handler_cases; norm.
    all: split; [reflexivity|]; congruence.
  - left. by_mounted w; [|done]. handler_cases; norm; by split.
  - left. by_mounted w; [|done]. norm. by split.
  - left. by_mounted w; [|done]. handler_cases; norm; by split.
Qed.


Lemma playNote_round note duration w :
  round (game (playNote note duration w)) = round (game w).
Proof. by rewrite playNote_eq. Qed.

Lemma pressKey_round note w :
  round (game (pressKey note w)) = round (game w).
Proof. unfold pressKey. by rewrite clearIfSet_eq. Qed.

Lemma handleNoteGuess_round note w :
  round (game (handleNoteGuess note w)) = round (game w).
Proof.
  destruct (decide (status (game w) = Status.guessing)) as [Hst|Hst];
    [|by rewrite handleNoteGuess_idle].
  by_mounted w; handler_cases; norm; reflexivity.
Qed.

(** Over one event of the game. *)
Lemma step_round w e w' :
  step difficulty arduinoPort w e w' -> Inv w ->
  roundKept w w' \/ roundAdvanced w w'.
Proof.
  intros Hstep HI.
  assert (Hone : forall v, act w v -> roundKept w v \/ roundAdvanced w v).
  { intros v Hv. destruct HI. by eapply act_round. }
  assert (Hsame : roundKept w w) by by split.
  destruct Hstep as [w t x Hnext _ _|w dt ? ?|w note Hm|w pin Hm _|w Hm Hst
                    |w Hm Hst|w Hm|w Hm _|w Hm _].
  - apply Hone. by apply act_fire.
  - apply Hone. by apply act_time.
  - left. unfold pianoKeyClick, handleKeyPress.
    destruct (_ || _) eqn:Hdis; [exact Hsame|].
    apply orb_false_elim in Hdis as [Hst%negb_false_iff%bool_decide_eq_true _].
    change (roundKept w (handleNoteGuess note
                           (playNote note 0.3 (pressKey note w)))).
    unfold roundKept. split; [|congruence].
    by rewrite handleNoteGuess_round, playNote_round, pressKey_round.
  - left. unfold handleArduinoData.
    destruct (pinToNote pin) as [note|]; [|exact Hsame].
    destruct (_ && _) eqn:Hg.
    + apply andb_prop in Hg as [Hst%bool_decide_eq_true _].
      unfold roundKept. split; [|congruence].
      by rewrite handleNoteGuess_round, playNote_round.
    + unfold roundKept. by rewrite playNote_eq.
  - left. unfold replayCurrentNote.
    destruct (currentNote (game w)); [|exact Hsame].
    rewrite bool_decide_true by done. unfold roundKept. by rewrite playNote_eq.
  - apply Hone. by apply act_replay.
  - apply Hone. by apply act_show.
  - apply Hone. by apply act_confirm.
  - apply Hone. by apply act_show.
Qed.


(** ** The last verdict *)

Lemma correctCount_le tr : correctCount tr <= guessesMade tr.
Proof.
  induction tr as [|o tr IH]; [done|].
  destruct o as [| | |[]| |]; cbn; lia.
Qed.





(** ** Leaving by the exit dialog *)




(** ** Starting a passage over another *)

Definition referencePassage : list Note :=
  if decide (difficulty = "easy") then triadSequence else scaleNotes.


(** The passage a round is primed with, and the pitches it may then ask. *)
Lemma initializeGame_spec w :
  let w' := initializeGame difficulty w in
  (exists p, players w' !! length (players w) = Some p
             /\ notes p = referencePassage)
  /\ (mounted w = true ->
      availableNotes (game w') = getAvailableNotes difficulty
      /\ status (game w') = Status.playing)
  /\ (forall t, t ∈ pending w -> t ∈ pending w')
  /\ audioCleanupRef (game w') = Some (length (players w)).
Proof.
  cbn zeta. unfold pending, referencePassage.
  unfold initializeGame, playTriad, playScale, newPlayer.
  destruct (decide (difficulty = "easy")); rewrite initializeAudioContext_eq;
    erewrite startSeq_eq by reflexivity; by_mounted w; norm.
  all: split_and!; [| |  |reflexivity].
  all: try (eexists; split;
            [apply list_lookup_insert_eq; rewrite length_app; cbn; lia
            |reflexivity]).
  all: try (intros t Hin; apply elem_of_app; left; apply elem_of_app;
            by left).
  all: intros Hyes; first [discriminate|by split].
Qed.

(** ** A signal from the device *)

Lemma playNote_tone note duration w ctx :
  audioContext (audioContextRef (game w)) = Some ctx ->
  exists ctx',
    audioContext (audioContextRef (game (playNote note duration w)))
      = Some ctx'
    /\ Audio.destination ctx'
       = Audio.destination ctx ++ [sounding ctx (now (loop w)) note duration]
    /\ activeAudioSources (playNote note duration w)
       = activeAudioSources w ++ Audio.sources
           (sounding ctx (now (loop w)) note duration).
Proof.
  intros Hctx. rewrite playNote_eq. cbn. unfold noteRef, noteSources.
  rewrite Hctx. eexists. split_and!; reflexivity.
Qed.

Lemma playNote_silent note duration w :
  audioContext (audioContextRef (game w)) = None ->
  playNote note duration w = w.
Proof. intros Hctx. unfold playNote. by rewrite Hctx. Qed.

Lemma handleNoteGuess_audio note w :
  audioContextRef (game (handleNoteGuess note w)) = audioContextRef (game w)
  /\ activeAudioSources (handleNoteGuess note w) = activeAudioSources w.
Proof.
  destruct (decide (status (game w) = Status.guessing)) as [Hst|Hst];
    [|by rewrite handleNoteGuess_idle].
  by_mounted w; handler_cases; norm; by split.
Qed.

Lemma handleNoteGuess_spec note w :
  mounted w = true -> status (game w) = Status.guessing ->
  let c := bool_decide (Some note = currentNote (game w)) in
  let w' := handleNoteGuess note w in
  trace w' = Guessed c :: trace w
  /\ status (game w') = Status.feedback
  /\ score (game w') = score (game w) + (if c then 1 else 0)
  /\ round (game w') = round (game w)
  /\ pending w'
     = pending w ++ [ {| tid := nextTimerId (loop w);
                         due := now (loop w) + 2500;
                         callback := CbFeedbackDone c (round (game w))
                                       (score (game w)) |} ].
Proof.
  intros Hm Hst. cbn zeta. unfold pending. unfold mounted in Hm.
  handler_cases; norm; split_and!; try reflexivity; lia.
Qed.


Lemma playNote_state note duration w :
  trace (playNote note duration w) = trace w
  /\ score (game (playNote note duration w)) = score (game w)
  /\ currentNote (game (playNote note duration w)) = currentNote (game w)
  /\ availableNotes (game (playNote note duration w))
     = availableNotes (game w).
Proof. by rewrite playNote_eq. Qed.



(** ** Runs, event by event *)

(** [Math.random] returns a number in the unit interval. *)
Definition inUnit (x : Q) : Prop := (0 <= x)%Q /\ (x < 1)%Q.

(** The actions that are not a timer firing. *)
Inductive uact : World -> World -> Prop :=
| uact_time w dt :
    (0 <= dt)%Z ->
    Forall (fun t => (now (loop w) + dt <= due t)%Z) (timers (loop w)) ->
    uact w (upd_loop (fun l => {| now := now l + dt; timers := timers l;
                                  nextTimerId := nextTimerId l |}) w)
| uact_note w note duration :
    (0 <= Qfloor (duration * 1000)%Q)%Z ->
    uact w (playNote note duration w)
| uact_press w note :
    mounted w = true -> uact w (pressKey note w)
| uact_guess w note :
    mounted w = true -> status (game w) = Status.guessing ->
    uact w (handleNoteGuess note w)
| uact_replay w :
    mounted w = true -> status (game w) = Status.guessing ->
    uact w (replayScale difficulty w)
| uact_show w b :
    mounted w = true -> uact w (setShowExitConfirm b w)
| uact_confirm w :
    mounted w = true -> uact w (confirmExit w).

Lemma uact_act w w' : uact w w' -> act w w'.
Proof.
  destruct 1.
  - by apply act_time.
  - by apply act_note.
  - by apply act_press.
  - by apply act_guess.
  - by apply act_replay.
  - by apply act_show.
  - by apply act_confirm.
Qed.

Lemma uacts_acts w w' : rtc uact w w' -> rtc act w w'.
Proof.
  induction 1 as [|w w1 w2 H1 _ IH]; [reflexivity|].
  eapply rtc_l; [by apply uact_act|done].
Qed.

(** A step is a timer firing, with a random number of the unit interval
    at hand, or a sequence of the other actions. *)
Lemma step_cases w e w' :
  step difficulty arduinoPort w e w' ->
  (exists t x, nextTimer w = Some t /\ inUnit x /\ w' = fire difficulty t x w)
  \/ rtc uact w w'.
Proof.
  destruct 1 as [w t x Hnext H0 H1|w dt ? ?|w note Hm|w pin Hm _|w Hm Hst
                |w Hm Hst|w Hm|w Hm _|w Hm _].
  - left. by exists t, x.
  - right. apply rtc_once. by apply uact_time.
  - right. unfold pianoKeyClick, handleKeyPress.
    destruct (_ || _) eqn:Hdis; [reflexivity|].
    apply orb_false_elim in Hdis as [Hst%negb_false_iff%bool_decide_eq_true _].
    change (rtc uact w (handleNoteGuess note
                          (playNote note 0.3 (pressKey note w)))).
    destruct (pressKey_frame note w) as [Hm1 Hs1].
    destruct (playNote_frame note 0.3 (pressKey note w)) as [Hm2 Hs2].
    apply rtc_l with (pressKey note w); [by apply uact_press|].
    apply rtc_l with (playNote note 0.3%Q (pressKey note w));
      [apply uact_note; by vm_compute|].
    apply rtc_once. apply uact_guess; congruence.
  - right. unfold handleArduinoData.
    destruct (pinToNote pin) as [note|]; [|reflexivity].
    destruct (playNote_frame note 0.3 w) as [Hm2 Hs2].
    apply rtc_l with (playNote note 0.3%Q w);
      [apply uact_note; by vm_compute|].
    destruct (_ && _) eqn:Hg; [|reflexivity].
    apply andb_prop in Hg as [Hst%bool_decide_eq_true _].
    apply rtc_once. apply uact_guess; congruence.
  - right. unfold replayCurrentNote.
    destruct (currentNote (game w)); [|reflexivity].
    rewrite bool_decide_true by done. apply rtc_once.
    apply uact_note. by vm_compute.
  - right. apply rtc_once. by apply uact_replay.
  - right. apply rtc_once. by apply uact_show.
  - right. apply rtc_once. by apply uact_confirm.
  - right. apply rtc_once. by apply uact_show.
Qed.

(** ** The note to guess *)

(** The index [selectRandomNote] computes is one of the array. *)
Lemma randomIndex_lt (x : Q) (n : nat) :
  inUnit x -> 0 < n ->
  Z.to_nat (Qfloor (x * inject_Z (Z.of_nat n))%Q) < n.
Proof.
  intros [H0 H1] Hn.
  assert (Hlo : (0 <= Qfloor (x * inject_Z (Z.of_nat n))%Q)%Z).
  { change 0%Z with (Qfloor 0). apply Qfloor_resp_le.
    apply Qmult_le_0_compat; [done|].
    change 0%Q with (inject_Z 0). rewrite <- Zle_Qle. lia. }
  assert (Hhi : (Qfloor (x * inject_Z (Z.of_nat n))%Q < Z.of_nat n)%Z).
  { rewrite Zlt_Qlt. eapply Qle_lt_trans; [apply Qfloor_le|].
    rewrite <- (Qmult_1_l (inject_Z (Z.of_nat n))) at 2.
    apply Qmult_lt_compat_r; [|done].
    change 0%Q with (inject_Z 0). rewrite <- Zlt_Qlt. lia. }
  lia.
Qed.

Lemma getAvailableNotes_nonempty d : 0 < length (getAvailableNotes d).
Proof. unfold getAvailableNotes. repeat case_decide; cbn; lia. Qed.

(** Every pending completion that will choose a note chooses from the
    usable pitches of the profile. *)
Definition choosesOk (l : list Timer) : Prop :=
  forall t ns, t ∈ l ->
    (exists h, callback t = CbPlayNextNote h (SelectRandomNote ns)
               \/ callback t = CbOnComplete h (SelectRandomNote ns)) ->
    ns = getAvailableNotes difficulty.

(** Callbacks that end in [selectRandomNote]. *)
Definition selects (cb : Callback) : bool :=
  match cb with
  | CbPlayNextNote _ (SelectRandomNote _)
  | CbOnComplete _ (SelectRandomNote _) => true
  | _ => false
  end.

Definition idleOk (l : list Timer) : Prop :=
  forall t, t ∈ l -> selects (callback t) = false.

(** The pitches a pending completion will choose from, the pitches the
    piano offers, and the note to guess. *)
Definition targetOk (w : World) : Prop :=
  choosesOk (pending w)
  /\ (status (game w) <> Status.initial ->
      availableNotes (game w) = getAvailableNotes difficulty)
  /\ (status (game w) = Status.guessing \/ status (game w) = Status.feedback ->
      exists n, currentNote (game w) = Some n
                /\ n ∈ getAvailableNotes difficulty)
  /\ (mounted w = true -> status (game w) = Status.initial ->
      idleOk (pending w)).

Lemma idleOk_filter (R : Timer -> Prop) `{!forall x, Decision (R x)} l :
  idleOk l -> idleOk (filter R l).
Proof. intros Hl t [_ Hin]%list_elem_of_filter. by apply Hl. Qed.

Lemma idleOk_ended l n d ids :
  idleOk l -> idleOk (l ++ endedFrom n d ids).
Proof.
  intros Hl t [Hin|Hin]%elem_of_app; [by apply Hl|].
  by apply endedFrom_callback in Hin as [o ->].
Qed.

Lemma idleOk_snoc l id d cb :
  selects cb = false -> idleOk l ->
  idleOk (l ++ [ {| tid := id; due := d; callback := cb |} ]).
Proof.
  intros Hcb Hl t [Hin|Hin]%elem_of_app; [by apply Hl|].
  by apply list_elem_of_singleton in Hin as ->.
Qed.

Lemma idleOk_primes l : count primes l = 0 -> idleOk l.
Proof.
  intros Hz t Hin. pose proof (count_zero _ _ _ Hz Hin) as Hp.
  by destruct (callback t) as [? []|? []| | | |].
Qed.

Ltac idl :=
  repeat first
    [ assumption
    | apply idleOk_ended
    | apply idleOk_filter
    | apply idleOk_snoc; [reflexivity|] ].

Lemma choosesOk_filter (R : Timer -> Prop) `{!forall x, Decision (R x)} l :
  choosesOk l -> choosesOk (filter R l).
Proof. intros Hl t ns [_ Hin]%list_elem_of_filter. by apply Hl. Qed.

Lemma choosesOk_ended l n d ids :
  choosesOk l -> choosesOk (l ++ endedFrom n d ids).
Proof.
  intros Hl t ns [Hin|Hin]%elem_of_app; [by apply Hl|].
  apply endedFrom_callback in Hin as [o ->]. by intros [h [?|?]].
Qed.

Lemma choosesOk_snoc l id d cb :
  (forall h ns, cb = CbPlayNextNote h (SelectRandomNote ns)
                \/ cb = CbOnComplete h (SelectRandomNote ns) ->
                ns = getAvailableNotes difficulty) ->
  choosesOk l ->
  choosesOk (l ++ [ {| tid := id; due := d; callback := cb |} ]).
Proof.
  intros Hcb Hl t ns [Hin|Hin]%elem_of_app; [by apply Hl|].
  apply list_elem_of_singleton in Hin as ->. cbn. intros [h Hh]. eauto.
Qed.

Ltac ch :=
  repeat first
    [ assumption
    | apply choosesOk_ended
    | apply choosesOk_filter
    | apply choosesOk_snoc;
      [ let Hc := fresh in
        intros ? ? [Hc|Hc]; first [discriminate Hc
                                  |injection Hc as ? ?; subst; eauto] |] ].

Ltac tg :=
  repeat match goal with |- _ /\ _ => split end;
  try solve [ch];
  try solve [intros; first [assumption|discriminate|congruence]];
  try solve [intros _ _; idl];
  try solve [intros [?|?]; discriminate];
  try solve [auto].

Lemma fire_targetOk w t x :
  nextTimer w = Some t -> inUnit x -> tokensOk w -> targetOk w ->
  targetOk (fire difficulty t x w).
Proof.
  unfold targetOk, tokensOk, pending.
  intros Hnext Hx Htok (Hch & Hav & Hcur & Hidle).
  apply nextTimer_elem in Hnext. unfold pending in Hnext.
  pose proof (fun ns => Hch _ ns Hnext) as Hme.
  unfold fire. destruct t as [id0 due0 cb]. cbn [callback] in Hme.
  by_mounted w; callback_cases cb w; norm; tg.
  all: try (intros _ Hst0; pose proof (Hidle eq_refl Hst0) as Hidle0;
            pose proof (Hidle0 _ Hnext) as Hsel; cbn in Hsel;
            try discriminate Hsel;
            first [ solve [idl]
                  | apply idleOk_snoc; [by destruct oc|solve [idl]] ]).
  all: try (intros _; apply Hav; intros Hst0;
            pose proof (Hidle eq_refl Hst0 _ Hnext) as Hsel;
            discriminate Hsel).
  - intros _. exists n. split; [done|].
    rewrite <- (Hme ns) by (exists h; by right).
    by eapply list_elem_of_lookup_2.
  - exfalso. rewrite (Hme ns) in Hn by (exists h; by right).
    apply lookup_ge_None in Hn.
    pose proof (randomIndex_lt x _ Hx (getAvailableNotes_nonempty difficulty)).
    lia.
  - intros _ _. apply idleOk_snoc; [done|]. apply idleOk_filter.
    apply idleOk_primes. unfold tokensP in Htok.
    pose proof (count_pos judges _ _ Hnext eq_refl).
    destruct (status (game w)); lia.
Qed.

Ltac idle_of Hidle :=
  let Hst0 := fresh "Hst0" in
  intros _ Hst0; pose proof (Hidle eq_refl Hst0); solve [idl].

Lemma uact_targetOk w w' :
  uact w w' -> tokensOk w -> targetOk w -> targetOk w'.
Proof.
  unfold targetOk, tokensOk, pending.
  destruct 1 as [| | | | | | ]; intros Htok (Hch & Hav & Hcur & Hidle).
  - done.
  - by_mounted w; norm; tg; idle_of Hidle.
  - by_mounted w; [|done]. handler_cases; norm; tg; idle_of Hidle.
  - by_mounted w; [|done]. handler_cases; norm; tg.
    all: intros _; apply Hav; congruence.
  - by_mounted w; [|done]. handler_cases; norm; tg; idle_of Hidle.
  - by_mounted w; [|done]. norm; tg.
  - by_mounted w; [|done]. handler_cases; norm; tg.
Qed.

Lemma uacts_targetOk w w' :
  rtc uact w w' -> Inv w -> targetOk w -> targetOk w'.
Proof.
  induction 1 as [|w w1 w2 H1 _ IH]; [done|].
  intros HI Hw. apply IH.
  - eapply act_Inv; [by apply uact_act|done].
  - eapply uact_targetOk; [done|exact (inv_tokens _ HI)|done].
Qed.

Lemma steps_targetOk w es w' :
  steps difficulty arduinoPort w es w' -> Inv w -> targetOk w -> targetOk w'.
Proof.
  induction 1 as [|w e w1 es w2 Hstep _ IH]; [done|].
  intros HI Hw.
  assert (HI1 : Inv w1) by (eapply acts_Inv; [by eapply step_acts|done]).
  apply IH; [done|].
  destruct (step_cases _ _ _ Hstep) as [(t & x & Hnext & Hx & ->)|Hu].
  - by apply fire_targetOk; [..|exact (inv_tokens _ HI)|].
  - by eapply uacts_targetOk.
Qed.

Lemma reachable_targetOk w :
  reachable difficulty arduinoPort w -> targetOk w.
Proof.
  intros (t0 & es & Hsteps).
  eapply steps_targetOk; [exact Hsteps|apply Inv_mount|].
  split_and!; try done.
  - intros t ns ->%list_elem_of_singleton [h [?|?]]; discriminate.
  - by intros [?|?].
  - by intros _ _ t ->%list_elem_of_singleton.
Qed.


(** ** A click on a key that is on offer *)

Lemma pianoKeyClick_eq note w :
  status (game w) = Status.guessing -> note ∈ availableNotes (game w) ->
  pianoKeyClick note w
  = handleNoteGuess note (playNote note 0.3%Q (pressKey note w)).
Proof.
  intros Hst Hin. unfold pianoKeyClick, handleKeyPress.
  by rewrite !bool_decide_true by done.
Qed.

Lemma pressKey_state note w :
  trace (pressKey note w) = trace w
  /\ game (pressKey note w) = game w
  /\ now (loop (pressKey note w)) = now (loop w)
  /\ (mounted w = true -> note ∈ pressedKeys (piano (pressKey note w)))
  /\ (exists t, t ∈ pending (pressKey note w)
                /\ callback t = CbReleaseKey note
                /\ due t = (now (loop w) + 200)%Z).
Proof.
  unfold pressKey, pending. rewrite clearIfSet_eq. cbn.
  split_and!; try reflexivity.
  - intros ->. unfold setAdd. case_bool_decide; [done|].
    apply elem_of_app. right. by apply list_elem_of_singleton.
  - eexists. split;
      [apply elem_of_app; right; by apply list_elem_of_singleton|].
    by split.
Qed.

Lemma playNote_rest note duration w :
  piano (playNote note duration w) = piano w
  /\ now (loop (playNote note duration w)) = now (loop w)
  /\ (forall t, t ∈ pending w -> t ∈ pending (playNote note duration w)).
Proof.
  rewrite playNote_eq. unfold pending. cbn. split_and!; try reflexivity.
  intros t Hin. apply elem_of_app. by left.
Qed.

Lemma handleNoteGuess_rest note w :
  piano (handleNoteGuess note w) = piano w
  /\ (forall t, t ∈ pending w -> t ∈ pending (handleNoteGuess note w)).
Proof.
  destruct (decide (status (game w) = Status.guessing)) as [Hst|Hst];
    [|by rewrite handleNoteGuess_idle].
  unfold pending.
  by_mounted w; handler_cases; norm; (split; [reflexivity|]).
  all: intros t Hin; apply elem_of_app; by left.
Qed.

Lemma pianoKeyClick_spec note w ctx :
  mounted w = true -> status (game w) = Status.guessing ->
  note ∈ availableNotes (game w) ->
  audioContext (audioContextRef (game w)) = Some ctx ->
  let c := bool_decide (Some note = currentNote (game w)) in
  let w' := pianoKeyClick note w in
  trace w' = Guessed c :: trace w
  /\ status (game w') = Status.feedback
  /\ score (game w') = score (game w) + (if c then 1 else 0)
  /\ round (game w') = round (game w)
  /\ (exists ctx',
        audioContext (audioContextRef (game w')) = Some ctx'
        /\ Audio.destination ctx'
           = Audio.destination ctx ++ [sounding ctx (now (loop w)) note 0.3%Q])
  /\ note ∈ pressedKeys (piano w')
  /\ (exists t, t ∈ pending w' /\ callback t = CbReleaseKey note
                /\ due t = (now (loop w) + 200)%Z)
  /\ (exists t, t ∈ pending w'
                /\ callback t = CbFeedbackDone c (round (game w))
                                  (score (game w))
                /\ due t = (now (loop w) + 2500)%Z).
Proof.
  intros Hm Hst Hin Hctx. cbn zeta. rewrite pianoKeyClick_eq by done.
  destruct (pressKey_state note w) as (Ht0 & Hg0 & Hn0 & Hp0 & Hr0).
  destruct (pressKey_frame note w) as [Hm0 Hs0].
  set (w0 := pressKey note w) in *.
  destruct (playNote_frame note 0.3 w0) as [Hm1 Hs1].
  destruct (playNote_state note 0.3 w0) as (Ht1 & Hsc1 & Hc1 & _).
  destruct (playNote_rest note 0.3 w0) as (Hp1 & Hn1 & Hk1).
  pose proof (playNote_round note 0.3 w0) as Hr1.
  assert (Hctx0 : audioContext (audioContextRef (game w0)) = Some ctx)
    by (by rewrite Hg0).
  destruct (playNote_tone note 0.3 w0 ctx Hctx0) as (ctx' & Hctx' & Hd & _).
  set (w1 := playNote note 0.3 w0) in *.
  destruct (handleNoteGuess_spec note w1) as (Ht2 & Hs2 & Hsc2 & Hr2 & Hq2);
    [congruence..|].
  destruct (handleNoteGuess_rest note w1) as (Hp2 & Hk2).
  destruct (handleNoteGuess_audio note w1) as (Ha2 & _).
  rewrite Hg0 in Hc1, Hsc1, Hr1.
  split_and!.
  - rewrite Ht2, Ht1, Ht0, Hc1. done.
  - done.
  - rewrite Hsc2, Hsc1, Hc1. done.
  - by rewrite Hr2, Hr1.
  - exists ctx'. rewrite Ha2. split; [done|]. by rewrite Hd, Hn0.
  - rewrite Hp2, Hp1. by apply Hp0.
  - destruct Hr0 as (t & Hin0 & Hcb & Hdue). exists t.
    split; [by apply Hk2, Hk1|done].
  - eexists. split; [rewrite Hq2; apply elem_of_app; right;
                     by apply list_elem_of_singleton|].
    cbn. rewrite Hc1, Hr1, Hsc1, Hn1, Hn0. done.
Qed.

(** ** Replaying the note to guess *)

Lemma replayCurrentNote_spec w n ctx :
  currentNote (game w) = Some n -> status (game w) = Status.guessing ->
  audioContext (audioContextRef (game w)) = Some ctx ->
  let w' := replayCurrentNote w in
  (exists ctx',
     audioContext (audioContextRef (game w')) = Some ctx'
     /\ Audio.destination ctx'
        = Audio.destination ctx ++ [sounding ctx (now (loop w)) n 1%Q])
  /\ trace w' = trace w
  /\ status (game w') = status (game w)
  /\ score (game w') = score (game w)
  /\ round (game w') = round (game w)
  /\ currentNote (game w') = currentNote (game w).
Proof.
  intros Hcur Hst Hctx. cbn zeta. unfold replayCurrentNote.
  rewrite Hcur, bool_decide_true by done.
  destruct (playNote_tone n 1 w ctx Hctx) as (ctx' & Hctx' & Hd & _).
  destruct (playNote_state n 1 w) as (? & ? & ? & _).
  destruct (playNote_frame n 1 w) as [_ ?].
  split_and!; try done; [by exists ctx'|apply playNote_round|congruence].
Qed.


(** ** What a stored timer id still refers to *)

(** The timer id an activation remembers is an id that was given out, and
    a timer pending under it is a continuation of that activation. *)
Definition staleOk (ps : list Player) (l : list Timer) (n : nat) : Prop :=
  forall h p id, ps !! h = Some p -> timeoutId p = Some id ->
    id < n /\ forall t, t ∈ l -> tid t = id -> handleOf (callback t) = Some h.

Lemma staleOk_filter (R : Timer -> Prop) `{!forall x, Decision (R x)}
    ps l n :
  staleOk ps l n -> staleOk ps (filter R l) n.
Proof.
  intros Hl h p id Hp Hid. destruct (Hl h p id Hp Hid) as [? Hcb].
  split; [done|]. intros t [_ Hin]%list_elem_of_filter. by apply Hcb.
Qed.

Lemma staleOk_snoc ps l n d cb :
  staleOk ps l n ->
  staleOk ps (l ++ [ {| tid := n; due := d; callback := cb |} ]) (S n).
Proof.
  intros Hl h p id Hp Hid. destruct (Hl h p id Hp Hid) as [? Hcb].
  split; [lia|]. intros t [Hin|Hin]%elem_of_app; [by apply Hcb|].
  apply list_elem_of_singleton in Hin as ->. cbn. lia.
Qed.

Lemma staleOk_ended ps l n d ids :
  staleOk ps l n -> staleOk ps (l ++ endedFrom n d ids) (n + length ids).
Proof.
  intros Hl h p id Hp Hid. destruct (Hl h p id Hp Hid) as [? Hcb].
  split; [lia|]. intros t [Hin|Hin]%elem_of_app; [by apply Hcb|].
  apply endedFrom_tid in Hin. lia.
Qed.

Lemma staleOk_new ps l n ns i :
  staleOk ps l n ->
  staleOk (ps ++ [ {| notes := ns; index := i; timeoutId := None |} ]) l n.
Proof.
  intros Hl h p id Hp Hid.
  apply lookup_app_Some in Hp as [Hp|[_ Hp]]; [by eapply Hl|].
  apply list_lookup_singleton_Some in Hp as [_ <-]. done.
Qed.

Lemma staleOk_next ps l n h d cb ns i :
  idsOk l n -> staleOk ps l n -> h < length ps -> handleOf cb = Some h ->
  staleOk (<[h := {| notes := ns; index := i; timeoutId := Some n |}]> ps)
    (l ++ [ {| tid := n; due := d; callback := cb |} ]) (S n).
Proof.
  intros (_ & Hall & _) Hl Hlt Hcb h' p id Hp Hid.
  rewrite Forall_forall in Hall.
  destruct (decide (h' = h)) as [->|Hne].
  - rewrite list_lookup_insert_eq in Hp by done. injection Hp as <-.
    cbn in Hid. injection Hid as <-. split; [lia|].
    intros t [Hin|Hin]%elem_of_app.
    + specialize (Hall t Hin). lia.
    + by apply list_elem_of_singleton in Hin as ->.
  - rewrite list_lookup_insert_ne in Hp by done.
    destruct (Hl h' p id Hp Hid) as [? Hold]. split; [lia|].
    intros t [Hin|Hin]%elem_of_app; [by apply Hold|].
    apply list_elem_of_singleton in Hin as ->. cbn. lia.
Qed.

Definition staleIds (w : World) : Prop :=
  staleOk (players w) (pending w) (nextTimerId (loop w)).

Ltac so :=
  repeat first
    [ assumption
    | apply staleOk_next;
      [ ids
      |
      | first [ by eapply lookup_lt_Some | rewrite length_app; cbn; lia ]
      | reflexivity ]
    | apply staleOk_snoc
    | apply staleOk_ended
    | apply staleOk_filter
    | apply staleOk_new ].

Lemma act_staleIds w w' :
  act w w' -> timerIds w -> staleIds w -> staleIds w'.
Proof.
  unfold staleIds, timerIds, pending.
  destruct 1 as [w t x Hnext| | | | | | | ]; intros Hids Hs.
  - unfold fire. destruct t as [id0 due0 cb]. callback_cases cb w; norm; so.
  - exact Hs.
  - norm; so.
  - handler_cases; norm; so.
  - handler_cases; norm; so.
  - handler_cases; norm; so.
  - exact Hs.
  - handler_cases; norm; so.
Qed.


(** ** The timer of the mount effect *)

(** The id the mount effect remembers was given out before, and a timer
    pending under it is the mount timer. *)
Definition mountOk (id : nat) (l : list Timer) (n : nat) : Prop :=
  id < n /\ forall t, t ∈ l -> tid t = id -> callback t = CbInitializeGame.

Lemma mountOk_filter (R : Timer -> Prop) `{!forall x, Decision (R x)}
    id l n :
  mountOk id l n -> mountOk id (filter R l) n.
Proof.
  intros [? Hl]. split; [done|].
  intros t [_ Hin]%list_elem_of_filter. by apply Hl.
Qed.

Lemma mountOk_snoc id l n d cb :
  mountOk id l n ->
  mountOk id (l ++ [ {| tid := n; due := d; callback := cb |} ]) (S n).
Proof.
  intros [? Hl]. split; [lia|].
  intros t [Hin|Hin]%elem_of_app; [by apply Hl|].
  apply list_elem_of_singleton in Hin as ->. cbn. lia.
Qed.

Lemma mountOk_ended id l n d ids :
  mountOk id l n -> mountOk id (l ++ endedFrom n d ids) (n + length ids).
Proof.
  intros [? Hl]. split; [lia|].
  intros t [Hin|Hin]%elem_of_app; [by apply Hl|].
  apply endedFrom_tid in Hin. lia.
Qed.

Definition mountTimerOk (w : World) : Prop :=
  mountOk (mountTimer (game w)) (pending w) (nextTimerId (loop w)).

Ltac mo :=
  repeat first
    [ assumption
    | apply mountOk_snoc
    | apply mountOk_ended
    | apply mountOk_filter ].

Lemma act_mountTimerOk w w' : act w w' -> mountTimerOk w -> mountTimerOk w'.
Proof.
  unfold mountTimerOk, pending.
  destruct 1 as [w t x Hnext| | | | | | | ]; intros Hmo.
  - unfold fire. destruct t as [id0 due0 cb].
    by_mounted w; callback_cases cb w; norm; mo.
  - exact Hmo.
  - norm; mo.
  - by_mounted w; [|done]. handler_cases; norm; mo.
  - by_mounted w; [|done]. handler_cases; norm; mo.
  - by_mounted w; [|done]. handler_cases; norm; mo.
  - by_mounted w; [|done]. norm; mo.
  - by_mounted w; [|done]. handler_cases; norm; mo.
Qed.

(** Before the first round is primed: nothing has been asked, and the
    only timer that can prime a round is the mount timer. *)
Definition onlyMount (id : nat) (l : list Timer) : Prop :=
  forall t, t ∈ l -> primes (callback t) = true -> tid t = id.

Definition firstOk (w : World) : Prop :=
  primings (trace w) = 0 ->
  status (game w) = Status.initial
  /\ count judges (pending w) = 0
  /\ onlyMount (mountTimer (game w)) (pending w).

Lemma onlyMount_filter (R : Timer -> Prop) `{!forall x, Decision (R x)}
    id l :
  onlyMount id l -> onlyMount id (filter R l).
Proof. intros Hl t [_ Hin]%list_elem_of_filter. by apply Hl. Qed.

Lemma onlyMount_snoc id l i d cb :
  primes cb = false -> onlyMount id l ->
  onlyMount id (l ++ [ {| tid := i; due := d; callback := cb |} ]).
Proof.
  intros Hcb Hl t [Hin|Hin]%elem_of_app; [by apply Hl|].
  apply list_elem_of_singleton in Hin as ->. cbn. by rewrite Hcb.
Qed.

Lemma onlyMount_ended id l n d ids :
  onlyMount id l -> onlyMount id (l ++ endedFrom n d ids).
Proof.
  intros Hl t [Hin|Hin]%elem_of_app; [by apply Hl|].
  by apply endedFrom_callback in Hin as [o ->].
Qed.

Ltac om :=
  repeat first
    [ assumption
    | apply onlyMount_ended
    | apply onlyMount_filter
    | apply onlyMount_snoc; [reflexivity|] ].

Ltac fo Hf :=
  let Hz := fresh "Hz" in
  intros Hz; cbn in Hz; try discriminate Hz;
  destruct (Hf Hz) as (Hst & Hj & Hom);
  first [ congruence
        | split_and!; [assumption|counts; shrink; lia|om] ].

Lemma act_firstOk w w' :
  act w w' -> mountTimerOk w -> firstOk w -> firstOk w'.
Proof.
  unfold firstOk, mountTimerOk, pending.
  destruct 1 as [w t x Hnext| | | | | | | ]; intros [_ Hmo] Hf.
  - apply nextTimer_elem in Hnext. unfold pending in Hnext.
    pose proof (Hmo _ Hnext) as Hme.
    unfold fire. destruct t as [id0 due0 cb]. cbn [tid callback] in Hme.
    by_mounted w; callback_cases cb w; norm.
    all: intros Hz; cbn in Hz; try discriminate Hz.
    all: destruct (Hf Hz) as (Hst & Hj & Hom).
    all: repeat match goal with oc : OnComplete |- _ => destruct oc end.
    all: try (by (pose proof (Hom _ Hnext eq_refl) as Hid; cbn in Hid;
                  specialize (Hme Hid); discriminate Hme)).
    all: try (by (pose proof (count_pos judges _ _ Hnext eq_refl); lia)).
    all: split_and!; [assumption|counts; shrink; lia|om].
  - exact Hf.
  - by_mounted w; norm; fo Hf.
  - by_mounted w; [|done]. handler_cases; norm; fo Hf.
  - by_mounted w; [|done]. handler_cases; norm; fo Hf.
  - by_mounted w; [|done]. handler_cases; norm; fo Hf.
  - by_mounted w; [|done]. norm; fo Hf.
  - by_mounted w; [|done]. handler_cases; norm; fo Hf.
Qed.

Lemma count_none P l :
  (forall t, t ∈ l -> P (callback t) = false) -> count P l = 0.
Proof.
  induction l as [|t l IH]; intros Hall; [done|].
  rewrite count_cons, (Hall t) by left. apply IH.
  intros t' Hin. apply Hall. by right.
Qed.

(** The further invariants, together. *)
Record Inv2 (w : World) : Prop :=
  { inv_stale : staleIds w;
    inv_mount : mountTimerOk w;
    inv_first : firstOk w }.

Lemma Inv2_mount t0 : Inv2 (mountGameScreen t0).
Proof.
  split.
  - intros h p id Hp. done.
  - split; [cbn; lia|]. by intros t ->%list_elem_of_singleton.
  - intros _. split_and!; [done..|].
    by intros t ->%list_elem_of_singleton.
Qed.

Lemma act_Inv2 w w' : act w w' -> Inv w -> Inv2 w -> Inv2 w'.
Proof.
  intros Hact HI [? ? ?]. split.
  - eapply act_staleIds; [done|exact (inv_ids _ HI)|done].
  - by eapply act_mountTimerOk.
  - by eapply act_firstOk.
Qed.

Lemma acts_Inv2 w w' : rtc act w w' -> Inv w -> Inv2 w -> Inv2 w'.
Proof.
  induction 1 as [|w w1 w2 Hact _ IH]; [done|].
  intros HI H2. apply IH; [by eapply act_Inv|by eapply act_Inv2].
Qed.

Lemma reachable_Inv2 w : reachable difficulty arduinoPort w -> Inv2 w.
Proof.
  intros (t0 & es & Hsteps).
  eapply acts_Inv2; [by eapply steps_acts|apply Inv_mount|apply Inv2_mount].
Qed.

(** ** What confirming the exit takes off the queue *)

Lemma confirmExit_pending w t :
  mounted w = true ->
  t ∈ pending (confirmExit w) <->
  t ∈ pending w /\ tid t <> mountTimer (game w)
  /\ ~ cleared (storedTimeout w) (tid t).
Proof.
  intros Hm. rewrite confirmExit_eq. cbn zeta. rewrite Hm.
  unfold mounted in Hm. unfold pending. norm.
  rewrite !list_elem_of_filter. tauto.
Qed.

Lemma confirmExit_keeps w t :
  staleIds w -> mountTimerOk w -> mounted w = true ->
  t ∈ pending w ->
  t ∈ pending (confirmExit w)
  \/ (tid t = mountTimer (game w) /\ callback t = CbInitializeGame)
  \/ (exists h, audioCleanupRef (game w) = Some h
                /\ handleOf (callback t) = Some h).
Proof.
  intros Hs [_ Hmo] Hm Hin. rewrite confirmExit_pending by done.
  destruct (decide (cleared (storedTimeout w) (tid t))) as [[Hc _]|Hnc].
  - right. right. unfold storedTimeout in Hc.
    destruct (audioCleanupRef (game w)) as [h|]; [|done].
    destruct (players w !! h) as [p|] eqn:Hp; [|done].
    exists h. split; [done|]. by eapply (Hs h p (tid t)).
  - destruct (decide (tid t = mountTimer (game w))) as [He|Hne].
    + right. left. split; [done|]. by apply Hmo.
    + by left.
Qed.

(** Confirming the exit before the first round is primed leaves nothing
    that could prime one. *)
Lemma confirmExit_early w :
  tokensOk w -> firstOk w -> mounted w = true ->
  primings (trace w) = 0 ->
  over (confirmExit w) /\ primings (trace (confirmExit w)) = 0.
Proof.
  intros Htok Hf Hm Hz. destruct (Hf Hz) as (Hst & Hj & Hom).
  unfold over. split_and!.
  - rewrite confirmExit_eq. cbn zeta. rewrite Hm. unfold mounted in Hm.
    by norm.
  - apply count_none. intros t [Hin [Hne _]]%confirmExit_pending; [|done].
    destruct (primes (callback t)) eqn:Hp; [|done].
    by destruct Hne; apply Hom.
  - apply count_none. intros t [Hin _]%confirmExit_pending; [|done].
    by eapply count_zero.
  - rewrite confirmExit_eq. cbn zeta. rewrite Hm. unfold mounted in Hm.
    by norm.
Qed.


(** ** The registry of sounding sources *)

Lemma tid_inj l t1 t2 :
  NoDup (tid <$> l) -> t1 ∈ l -> t2 ∈ l -> tid t1 = tid t2 -> t1 = t2.
Proof.
  intros Hnd Hin1 Hin2 Htid.
  apply list_elem_of_lookup in Hin1 as [i1 Hi1].
  apply list_elem_of_lookup in Hin2 as [i2 Hi2].
  assert (i1 = i2) as ->; [|congruence].
  eapply NoDup_lookup; [exact Hnd|..].
  - by rewrite list_lookup_fmap, Hi1.
  - by rewrite list_lookup_fmap, Hi2, Htid.
Qed.

Lemma removeFirst_elem o o' l :
  NoDup l -> o' ∈ removeFirst o l <-> o' ∈ l /\ o' <> o.
Proof.
  induction l as [|a l IH]; cbn.
  - intros _. rewrite elem_of_nil. tauto.
  - intros [Hnotin Hnd]%NoDup_cons. destruct (decide (a = o)) as [->|Hne].
    + rewrite elem_of_cons. split.
      * intros Hin. split; [by right|]. by intros ->.
      * intros [[->|Hin] Hneq]; done.
    + rewrite !elem_of_cons, IH by done. split.
      * intros [->|[? ?]]; [split; [by left|done]|split; [by right|done]].
      * intros [[->|?] ?]; [by left|by right].
Qed.

Lemma removeFirst_NoDup o l : NoDup l -> NoDup (removeFirst o l).
Proof.
  induction l as [|a l IH]; cbn; [done|].
  intros [Hnotin Hnd]%NoDup_cons. destruct (decide (a = o)); [done|].
  apply NoDup_cons. split; [|by apply IH].
  rewrite removeFirst_elem by done. tauto.
Qed.

(** An ended event that comes after the registry was emptied finds
    nothing to remove. *)
Lemma removeFirst_absent o l : o ∉ l -> removeFirst o l = l.
Proof.
  induction l as [|a l IH]; cbn; [done|].
  intros [Hne Hnotin]%not_elem_of_cons.
  destruct (decide (a = o)); [congruence|]. by rewrite IH.
Qed.

Lemma endedFrom_has n d ids o :
  o ∈ ids -> exists t, t ∈ endedFrom n d ids /\ callback t = CbOnEnded o.
Proof.
  revert n. induction ids as [|a ids IH]; intros n; cbn.
  - by intros ?%elem_of_nil.
  - intros [->|Hin]%elem_of_cons.
    + eexists. split; [by left|done].
    + destruct (IH (S n) Hin) as (t & Ht & Hcb). exists t.
      split; [by right|done].
Qed.

(** The registry has no source twice, every source in it has its ended
    event pending, and its sources were made by the audio context. *)
Definition registryP (srcs : list nat) (l : list Timer)
    (ref : AudioContextRef) : Prop :=
  NoDup srcs
  /\ (forall o, o ∈ srcs -> exists t, t ∈ l /\ callback t = CbOnEnded o)
  /\ match audioContext ref with
     | None => srcs = []
     | Some ctx => forall o, o ∈ srcs -> o < Audio.nextNodeId ctx
     end.

Lemma registryP_nil l ref : registryP [] l ref.
Proof.
  split_and!; [apply NoDup_nil_2|by intros o ?%elem_of_nil|].
  destruct (audioContext ref); [by intros o ?%elem_of_nil|done].
Qed.

Lemma registryP_app srcs l l' ref :
  registryP srcs l ref -> registryP srcs (l ++ l') ref.
Proof.
  intros (Hnd & Hev & Hb). split_and!; [done| |done].
  intros o Hin. destruct (Hev o Hin) as (t & Ht & Hcb).
  exists t. split; [|done]. apply elem_of_app. by left.
Qed.

Lemma registryP_filter (R : Timer -> Prop) `{!forall x, Decision (R x)}
    srcs l ref :
  (forall t o, t ∈ l -> callback t = CbOnEnded o -> R t) ->
  registryP srcs l ref -> registryP srcs (filter R l) ref.
Proof.
  intros HR (Hnd & Hev & Hb). split_and!; [done| |done].
  intros o Hin. destruct (Hev o Hin) as (t & Ht & Hcb).
  exists t. split; [|done]. apply list_elem_of_filter. eauto.
Qed.

Lemma registryP_init srcs l w :
  registryP srcs l (audioContextRef (game w)) ->
  registryP srcs l (initRef w).
Proof.
  unfold initRef, registryP.
  destruct (audioContext (audioContextRef (game w))) eqn:E; [by rewrite E|].
  intros (Hnd & Hev & ->). cbn. split_and!; [done..|].
  by intros o ?%elem_of_nil.
Qed.

Lemma registryP_note srcs l n d note duration w :
  registryP srcs l (audioContextRef (game w)) ->
  registryP (srcs ++ noteSources w) (l ++ endedFrom n d (noteSources w))
    (noteRef note duration w).
Proof.
  unfold noteSources, noteRef, registryP.
  destruct (audioContext (audioContextRef (game w))) as [ctx|] eqn:E.
  - intros (Hnd & Hev & Hb). cbn [audioContext Audio.nextNodeId]. split_and!.
    + apply NoDup_app. split_and!; [done| |apply NoDup_seq].
      intros o Ho [? ?]%elem_of_seq. specialize (Hb o Ho). lia.
    + intros o [Ho|Ho]%elem_of_app.
      * destruct (Hev o Ho) as (t & Ht & Hcb). exists t.
        split; [|done]. apply elem_of_app. by left.
      * destruct (endedFrom_has n d _ o Ho) as (t & Ht & Hcb). exists t.
        split; [|done]. apply elem_of_app. by right.
    + intros o [Ho|[? ?]%elem_of_seq]%elem_of_app; [|lia].
      specialize (Hb o Ho). lia.
  - rewrite E. intros (Hnd & Hev & ->). cbn. rewrite app_nil_r.
    split_and!; [done|by intros o ?%elem_of_nil|done].
Qed.

Lemma registryP_ended srcs l ref t0 o :
  NoDup (tid <$> l) -> t0 ∈ l -> callback t0 = CbOnEnded o ->
  registryP srcs l ref ->
  registryP (removeFirst o srcs) (filter (fun t => tid t <> tid t0) l) ref.
Proof.
  intros Hids Hin0 Hcb0 (Hnd & Hev & Hb). split_and!.
  - by apply removeFirst_NoDup.
  - intros o' [Ho' Hne]%removeFirst_elem; [|done].
    destruct (Hev o' Ho') as (t & Ht & Hcb). exists t. split; [|done].
    apply list_elem_of_filter. split; [|done].
    intros Htid. assert (t = t0) as -> by by eapply tid_inj. congruence.
  - destruct (audioContext ref).
    + intros o' [Ho' _]%removeFirst_elem; [|done]. by apply Hb.
    + by rewrite Hb.
Qed.

(** Taking a timer that is no ended event off the queue. *)
Lemma registryP_dequeue srcs l ref t0 :
  NoDup (tid <$> l) -> t0 ∈ l -> (forall o, callback t0 <> CbOnEnded o) ->
  registryP srcs l ref ->
  registryP srcs (filter (fun t => tid t <> tid t0) l) ref.
Proof.
  intros Hids Hin0 Hcb0. apply registryP_filter.
  intros t o Hin Hcb Htid.
  assert (t = t0) as -> by by eapply tid_inj. by eapply Hcb0.
Qed.

(** Clearing the release timer of a key. *)
Lemma registryP_release srcs l ref pref n note :
  pianoOk pref l n ->
  registryP srcs l ref ->
  registryP srcs (filter (fun t => ~ cleared (pref note) (tid t)) l) ref.
Proof.
  intros Hp. apply registryP_filter.
  intros t o Hin Hcb [Href _].
  destruct (Hp note (tid t) Href) as [_ Hrel].
  rewrite (Hrel t Hin eq_refl) in Hcb. discriminate.
Qed.

Definition registryOk (w : World) : Prop :=
  registryP (activeAudioSources w) (pending w) (audioContextRef (game w)).


Ltac rg :=
  repeat first
    [ assumption
    | apply registryP_nil
    | apply registryP_note; norm
    | apply registryP_init; norm
    | apply registryP_app ].

Lemma act_registryOk w w' :
  act w w' -> timerIds w -> pianoTimers w -> registryOk w -> registryOk w'.
Proof.
  unfold registryOk, timerIds, pianoTimers, pending.
  destruct 1 as [w t x Hnext| | | | | | | ];
    intros (_ & _ & Hnd) Hp Hr.
  - apply nextTimer_elem in Hnext. unfold pending in Hnext.
    assert (Hdq : (forall o, callback t <> CbOnEnded o) ->
              registryP (activeAudioSources w)
                (filter (fun t' => tid t' <> tid t) (timers (loop w)))
                (audioContextRef (game w))).
    { intros Hcb. by apply registryP_dequeue. }
    pose proof (fun o Hcb => registryP_ended _ _ _ t o Hnd Hnext Hcb Hr) as Hen.
    unfold fire. destruct t as [id0 due0 cb]. cbn [tid callback] in Hdq, Hen.
    by_mounted w; callback_cases cb w; norm; rg.
    all: first [by apply Hdq|by apply Hen].
  - exact Hr.
  - norm; rg.
  - handler_cases; norm; rg.
    exact (registryP_release _ _ _ (pressTimeoutRef (piano w)) _ note Hp Hr).
  - by_mounted w; [|done]. handler_cases; norm; rg.
  - by_mounted w; [|done]. handler_cases; norm; rg.
  - by_mounted w; [|done]. norm; rg.
  - by_mounted w; [|done]. handler_cases; norm; rg.
Qed.

Lemma acts_registryOk w w' :
  rtc act w w' -> Inv w -> registryOk w -> registryOk w'.
Proof.
  induction 1 as [|w w1 w2 Hact _ IH]; [done|].
  intros HI Hr. apply IH; [by eapply act_Inv|].
  eapply act_registryOk;
    [done|exact (inv_ids _ HI)|exact (inv_piano _ HI)|done].
Qed.

Lemma reachable_registryOk w :
  reachable difficulty arduinoPort w -> registryOk w.
Proof.
  intros (t0 & es & Hsteps).
  eapply acts_registryOk; [by eapply steps_acts|apply Inv_mount|].
  apply registryP_nil.
Qed.

(** ** The audio context *)

(** The context of [ref'] is the context of [ref], later: the same time
    origin, the tones connected so far and maybe more. *)
Definition ctxGrows (ref ref' : AudioContextRef) : Prop :=
  forall ctx, audioContext ref = Some ctx ->
    exists ctx', audioContext ref' = Some ctx'
      /\ Audio.timeOrigin ctx' = Audio.timeOrigin ctx
      /\ Audio.destination ctx `prefix_of` Audio.destination ctx'
      /\ Audio.nextNodeId ctx <= Audio.nextNodeId ctx'.

Lemma ctxGrows_refl ref : ctxGrows ref ref.
Proof. intros ctx Hctx. by exists ctx. Qed.

Lemma ctxGrows_trans ref1 ref2 ref3 :
  ctxGrows ref1 ref2 -> ctxGrows ref2 ref3 -> ctxGrows ref1 ref3.
Proof.
  intros H12 H23 ctx Hctx.
  destruct (H12 ctx Hctx) as (ctx2 & H2 & Ho2 & Hd2 & Hn2).
  destruct (H23 ctx2 H2) as (ctx3 & H3 & Ho3 & Hd3 & Hn3).
  exists ctx3. split_and!; [done|congruence|by etrans|lia].
Qed.

Lemma ctxGrows_note ref note duration w :
  ctxGrows ref (audioContextRef (game w)) ->
  ctxGrows ref (noteRef note duration w).
Proof.
  intros Hw. eapply ctxGrows_trans; [exact Hw|].
  intros ctx Hctx. unfold noteRef. rewrite Hctx. eexists.
  split_and!; [reflexivity|reflexivity|by apply prefix_app_r|cbn; lia].
Qed.

Lemma ctxGrows_init ref w :
  ctxGrows ref (audioContextRef (game w)) -> ctxGrows ref (initRef w).
Proof.
  intros Hw. eapply ctxGrows_trans; [exact Hw|].
  intros ctx Hctx. unfold initRef. rewrite Hctx. by exists ctx.
Qed.

Ltac cg :=
  repeat first
    [ apply ctxGrows_refl
    | apply ctxGrows_note; norm
    | apply ctxGrows_init; norm ].

Lemma act_ctxGrows w w' :
  act w w' -> ctxGrows (audioContextRef (game w)) (audioContextRef (game w')).
Proof.
  destruct 1 as [w t x Hnext| | | | | | | ].
  - unfold fire. destruct t as [id0 due0 cb].
    by_mounted w; callback_cases cb w; norm; cg.
  - apply ctxGrows_refl.
  - norm; cg.
  - by_mounted w; [|done]. handler_cases; norm; cg.
  - by_mounted w; [|done]. handler_cases; norm; cg.
  - by_mounted w; [|done]. handler_cases; norm; cg.
  - by_mounted w; [|done]. norm; cg.
  - by_mounted w; [|done]. handler_cases; norm; cg.
Qed.

Lemma acts_ctxGrows w w' :
  rtc act w w' ->
  ctxGrows (audioContextRef (game w)) (audioContextRef (game w')).
Proof.
  induction 1 as [|w w1 w2 Hact _ IH]; [apply ctxGrows_refl|].
  eapply ctxGrows_trans; [by apply act_ctxGrows|done].
Qed.

End Invariants.

(** * The game, claim by claim *)

(** ** Sample runs *)

(** What [Math.random] returns in the sample runs. *)
Definition half : Q := 1 # 2.

Lemma half_unit : (0 <= half)%Q /\ (half < 1)%Q.
Proof. unfold half, Qle, Qlt. cbn. lia. Qed.

(** The game left alone until it asks for the first guess. *)
Definition firstQuestion (difficulty : string) : World :=
  runTimers difficulty 80 half (mountGameScreen 0).

(** A click on a piano key, and the game left alone again. *)
Definition answer (difficulty : string) (note : Note) (w : World) : World :=
  runTimers difficulty 80 half (pianoKeyClick note w).

(** An easy game at the guess of its fifth round. *)
Definition lastQuestion : World :=
  answer "easy" C
    (answer "easy" E (answer "easy" E (answer "easy" G (firstQuestion "easy")))).

(** The mount timer has fired and the first note of the passage sounds. *)
Definition firstNote (difficulty : string) : World :=
  runTimers difficulty 1 half (mountGameScreen 0).

(** The player asked for the passage again, and once more at once. *)
Definition twoReplays : World :=
  replayScale "easy" (replayScale "easy" (firstQuestion "easy")).

(** ** What the claims say of a world *)

(** The notes of activation [h] were started 700 ms apart from [t0] on,
    each for 0.6 s, and its completion ran at [td], 1300 ms after the last
    note was started. *)
Definition timeline (w : World) (h : nat) (p : Player) (td : Z) : Prop :=
  exists t0 : Z,
    (forall i n, notes p !! i = Some n ->
       SeqNote h i n 0.6%Q (t0 + 700 * Z.of_nat i)%Z ∈ trace w)
    /\ (forall i n d t, SeqNote h i n d t ∈ trace w ->
          notes p !! i = Some n /\ d = 0.6%Q
          /\ t = (t0 + 700 * Z.of_nat i)%Z)
    /\ td = (t0 + 700 * Z.of_nat (length (notes p) - 1) + 1300)%Z.





(** Five triangle partials at 1 to 5 times [f] with the gains of the
    piano tone, and the envelope of a tone started at [t0] for [d]
    seconds. *)
Definition pianoShaped (f t0 d : Q) (tone : Audio.PianoTone) : Prop :=
  map (fun o => (Audio.osc_type o, Audio.osc_frequency o, Audio.osc_gain o))
      (Audio.oscillators tone)
  = [ (Audio.triangle, f, 0.8); (Audio.triangle, f * 2, 0.3);
      (Audio.triangle, f * 3, 0.15); (Audio.triangle, f * 4, 0.08);
      (Audio.triangle, f * 5, 0.04) ]%Q
  /\ Audio.envelope tone
     = [ Audio.setValueAtTime 0 t0;
         Audio.linearRampToValueAtTime 0.4 (t0 + 0.01);
         Audio.exponentialRampToValueAtTime 0.2 (t0 + 0.1);
         Audio.exponentialRampToValueAtTime 0.05 (t0 + d * 0.7);
         Audio.linearRampToValueAtTime 0 (t0 + d) ]%Q.

(** ** The sample runs are runs of the game *)

Ltac evaluated := vm_compute; reflexivity.

(** Membership in a list that evaluates. *)
Ltac listed :=
  vm_compute;
  repeat first [ apply list_elem_of_here | apply list_elem_of_further ].

Lemma reachable_firstQuestion difficulty arduinoPort :
  reachable difficulty arduinoPort (firstQuestion difficulty).
Proof.
  apply reachable_runTimers; [apply half_unit..|apply reachable_mount].
Qed.

Lemma reachable_firstNote difficulty arduinoPort :
  reachable difficulty arduinoPort (firstNote difficulty).
Proof.
  apply reachable_runTimers; [apply half_unit..|apply reachable_mount].
Qed.

Lemma reachable_answer difficulty arduinoPort note w :
  reachable difficulty arduinoPort w -> mounted w = true ->
  reachable difficulty arduinoPort (answer difficulty note w).
Proof.
  intros Hw Hm. apply reachable_runTimers; [apply half_unit..|].
  eapply reachable_step; [exact Hw|]. by apply step_key.
Qed.

Lemma reachable_lastQuestion arduinoPort :
  reachable "easy" arduinoPort lastQuestion.
Proof.
  unfold lastQuestion.
  do 4 (apply reachable_answer; [|evaluated]).
  apply reachable_firstQuestion.
Qed.

Lemma reachable_replay difficulty arduinoPort w :
  reachable difficulty arduinoPort w ->
  mounted w = true -> status (game w) = Status.guessing ->
  reachable difficulty arduinoPort (replayScale difficulty w).
Proof.
  intros Hw Hm Hst. eapply reachable_step; [exact Hw|].
  by apply step_replay_scale.
Qed.

Lemma reachable_twoReplays arduinoPort :
  reachable "easy" arduinoPort twoReplays.
Proof.
  unfold twoReplays.
  do 2 (apply reachable_replay; [|evaluated..]).
  apply reachable_firstQuestion.
Qed.

(** ** C1: the reference passage and the usable pitches *)

(** One list of pitches within another, both written out. *)
Ltac within :=
  let Hin := fresh "Hin" in
  intros Hin; apply list_elem_of_In in Hin; apply list_elem_of_In;
  cbn in *; tauto.

(** C1, as the code has it: the passage that primes a round sounds every
    pitch the round may ask for, under every difficulty profile; the
    passage stays within the usable pitches under "easy" and "hard".
    (Under "medium" the passage is the whole scale, the usable pitches are
    four of its seven.) *)
Theorem usable_within_passage difficulty w :
  exists p,
    players (initializeGame difficulty w) !! length (players w) = Some p
    /\ notes p = referencePassage difficulty
    /\ (forall n, n ∈ getAvailableNotes difficulty -> n ∈ notes p)
    /\ (difficulty = "easy" \/ difficulty = "hard" ->
        forall n, n ∈ notes p -> n ∈ getAvailableNotes difficulty).
Proof.
  destruct (initializeGame_spec difficulty w) as ((p & Hp & Hn) & _).
  exists p. split_and!; [done..| |].
  - rewrite Hn. unfold referencePassage, getAvailableNotes.
    unfold triadSequence, scaleNotes. intros n.
    destruct (decide (difficulty = "easy")); [within|].
    destruct (decide (difficulty = "medium")); [within|].
    destruct (decide (difficulty = "hard")); within.
  - rewrite Hn. unfold referencePassage, getAvailableNotes.
    unfold triadSequence, scaleNotes. intros Hd n.
    destruct (decide (difficulty = "easy")); [within|].
    destruct (decide (difficulty = "medium")) as [->|]; [by destruct Hd|].
    destruct (decide (difficulty = "hard")); [within|]. by destruct Hd.
Qed.

(** C1, as the spec has it, fails under "medium": the passage sounds D,
    which the round cannot ask for. *)
Lemma medium_passage_leaves_usable :
  exists w p,
    reachable "medium" false w
    /\ players w !! 0 = Some p
    /\ availableNotes (game w) = getAvailableNotes "medium"
    /\ D ∈ notes p /\ D ∉ availableNotes (game w).
Proof.
  exists (firstNote "medium"),
    {| notes := scaleNotes; index := 1; timeoutId := Some 7 |}.
  split_and!; [apply reachable_firstNote|evaluated|evaluated|listed|].
  assert (availableNotes (game (firstNote "medium")) = [C; E; F; G]) as ->
    by evaluated.
  intros Hin. apply list_elem_of_In in Hin. cbn in Hin.
  intuition discriminate.
Qed.

(** ** C2: the timeline of a passage *)

(** C2, as the code has it: when a passage has completed, each of its notes
    was started once, in order, 700 ms after the one before and for 0.6 s;
    the completion ran 1300 ms after the last note was started (the 700 ms
    to the tick that finds the passage exhausted, and the 600 ms timeout
    that tick sets). *)
Theorem passage_timeline difficulty arduinoPort w h p td :
  reachable difficulty arduinoPort w ->
  players w !! h = Some p ->
  SeqDone h td ∈ trace w ->
  timeline w h p td.
Proof.
  intros Hw Hp Hdone.
  destruct (inv_seq _ _ (reachable_Inv _ _ _ Hw)) as [Hseq _].
  destruct (Hseq h p Hp) as [t0 [Hnote Hall _ _ Hd Hidx]].
  destruct (Hd td Hdone) as [-> Hlen].
  exists t0. split_and!.
  - intros i n Hi. pose proof (lookup_lt_Some _ _ _ Hi) as Hlt.
    destruct (Hall i) as [n' Hn']; [lia|].
    destruct (Hnote _ _ _ _ Hn') as (_ & Hi' & _).
    assert (n' = n) as -> by congruence. exact Hn'.
  - intros i n d t Hin. destruct (Hnote _ _ _ _ Hin) as (_ & ? & ? & ?).
    done.
  - lia.
Qed.

Lemma passage_timeline_witness :
  timeline (firstQuestion "easy") 0
    {| notes := triadSequence; index := 5; timeoutId := Some 32 |} 6100.
Proof.
  apply (passage_timeline "easy" false).
  - apply reachable_firstQuestion.
  - evaluated.
  - listed.
Defined.

(** C2, as the spec has it, fails: in the easy game left alone, the last
    note of the first passage starts at 4800 and the completion runs at
    6100. *)
Lemma completion_not_600_after_last_note :
  exists w p tl td,
    reachable "easy" false w
    /\ players w !! 0 = Some p
    /\ SeqNote 0 (length (notes p) - 1) C 0.6%Q tl ∈ trace w
    /\ SeqDone 0 td ∈ trace w
    /\ td = (tl + 1300)%Z /\ td <> (tl + 600)%Z.
Proof.
  exists (firstQuestion "easy"),
    {| notes := triadSequence; index := 5; timeoutId := Some 32 |},
    4800%Z, 6100%Z.
  split_and!; [apply reachable_firstQuestion|evaluated|listed|listed|lia..].
Qed.

(** ** C3: cancelling a passage *)

(** C3: when the cancel function of a passage is invoked before its note
    [N] has been started, then whatever happens afterwards no note of it
    from [N] on is started and its completion never runs. *)
Theorem cancelled_passage_is_silent difficulty arduinoPort w h p N es w' :
  reachable difficulty arduinoPort w ->
  players w !! h = Some p ->
  index p <= N -> N < length (notes p) ->
  steps difficulty arduinoPort (cleanup h w) es w' ->
  (forall i n d t, SeqNote h i n d t ∈ trace w' -> i < N)
  /\ (forall t, SeqDone h t ∉ trace w').
Proof.
  intros Hw Hp Hidx HN Hsteps.
  pose proof (reachable_Inv _ _ _ Hw) as HI.
  destruct (cleanup_dead h p w (inv_ids _ _ HI) (inv_handles _ _ HI) Hp)
    as (Hdead & _ & Htr).
  destruct (acts_dead _ _ _ _ (steps_acts _ _ _ _ _ Hsteps) Hdead)
    as (_ & _ & Hold).
  destruct (inv_seq _ _ HI) as [Hseq _].
  destruct (Hseq h p Hp) as [t0 [Hnote _ _ _ Hd _]].
  split.
  - intros i n d t Hin. apply Hold in Hin; [|reflexivity].
    rewrite Htr in Hin. destruct (Hnote _ _ _ _ Hin) as (? & _). lia.
  - intros t Hin. apply Hold in Hin; [|reflexivity].
    rewrite Htr in Hin. destruct (Hd _ Hin) as (_ & ?). lia.
Qed.

Lemma cancelled_passage_is_silent_witness :
  (forall i n d t,
     SeqNote 0 i n d t
       ∈ trace (runTimers "easy" 80 half (cleanup 0 (firstNote "easy"))) ->
     i < 1)
  /\ (forall t,
        SeqDone 0 t
          ∉ trace (runTimers "easy" 80 half (cleanup 0 (firstNote "easy")))).
Proof.
  destruct (runTimers_steps "easy" false 80 half (cleanup 0 (firstNote "easy"))
              (proj1 half_unit) (proj2 half_unit)) as [es Hes].
  apply (cancelled_passage_is_silent "easy" false (firstNote "easy") 0
           {| notes := triadSequence; index := 1; timeoutId := Some 7 |}
           1 es).
  - apply reachable_firstNote.
  - evaluated.
  - cbn. lia.
  - cbn. lia.
  - exact Hes.
Defined.

(** ** C4: starting a passage while another is scheduled *)




(** ** C5: the round counter *)

(** C5: the round counter stays between 1 and the number of rounds of the
    profile, 5 for "easy" and 10 for any other; an event that ends a
    feedback phase leads to the phase before priming with the counter one
    higher, and every other event leaves the counter as it is. *)
Theorem round_counter difficulty arduinoPort w :
  reachable difficulty arduinoPort w ->
  1 <= round (game w) <= totalRounds difficulty
  /\ totalRounds difficulty = (if decide (difficulty = "easy") then 5 else 10)
  /\ (forall e w', step difficulty arduinoPort w e w' ->
        roundKept w w' \/ roundAdvanced w w').
Proof.
  intros Hw. pose proof (reachable_Inv _ _ _ Hw) as HI.
  destruct (inv_scoring _ _ HI) as (_ & _ & _ & Hr).
  split_and!; [lia|lia|reflexivity|].
  intros e w' Hstep. by eapply step_round.
Qed.

Lemma round_counter_witness :
  1 <= round (game lastQuestion) <= totalRounds "easy"
  /\ totalRounds "easy" = (if decide ("easy" = "easy") then 5 else 10)
  /\ (forall e w', step "easy" false lastQuestion e w' ->
        roundKept lastQuestion w' \/ roundAdvanced lastQuestion w').
Proof.
  apply (round_counter "easy" false lastQuestion).
  apply reachable_lastQuestion.
Defined.

(** ** C6: a signal from the input device *)




(** ** C7: the end of the game *)



(** ** C8: leaving by the exit dialog *)




(** ** C9: the synthesized tone *)

(** C9: the tone [playNote] connects for a pitch is the sum of five
    partials at 1, 2, 3, 4 and 5 times the frequency of the pitch with
    gains 0.8, 0.3, 0.15, 0.08 and 0.04, under an envelope that goes
    linearly from 0 to 0.4 in 10 ms, exponentially to 0.2 by 100 ms and to
    0.05 by 0.7 of the duration, and linearly to 0 at the duration; its
    five sources are started at once and stopped at the duration. *)
Theorem piano_tone_synthesis note duration w ctx :
  audioContext (audioContextRef (game w)) = Some ctx ->
  exists ctx' s,
    audioContext (audioContextRef (game (playNote note duration w)))
      = Some ctx'
    /\ Audio.destination ctx' = Audio.destination ctx ++ [s]
    /\ Audio.pitch s = note
    /\ pianoShaped (Audio.noteFrequencies note)
         (Audio.currentTime ctx (now (loop w))) duration (Audio.tone s)
    /\ length (Audio.sources s) = 5
    /\ Audio.startAt s = Audio.currentTime ctx (now (loop w))
    /\ Audio.stopAt s = (Audio.currentTime ctx (now (loop w)) + duration)%Q.
Proof.
  intros Hctx.
  destruct (playNote_tone note duration w ctx Hctx) as (ctx' & Hctx' & Hd & _).
  exists ctx', (sounding ctx (now (loop w)) note duration).
  by split_and!.
Qed.

Lemma piano_tone_synthesis_witness :
  exists ctx,
    audioContext (audioContextRef (game (firstQuestion "easy"))) = Some ctx
    /\ exists ctx' s,
         audioContext
           (audioContextRef (game (playNote A 1 (firstQuestion "easy"))))
           = Some ctx'
         /\ Audio.destination ctx' = Audio.destination ctx ++ [s]
         /\ Audio.pitch s = A
         /\ pianoShaped (Audio.noteFrequencies A)
              (Audio.currentTime ctx (now (loop (firstQuestion "easy")))) 1
              (Audio.tone s)
         /\ length (Audio.sources s) = 5
         /\ Audio.startAt s
            = Audio.currentTime ctx (now (loop (firstQuestion "easy")))
         /\ Audio.stopAt s
            = (Audio.currentTime ctx (now (loop (firstQuestion "easy"))) + 1)%Q.
Proof.
  eexists. split; [evaluated|].
  apply (piano_tone_synthesis A 1 (firstQuestion "easy")).
  evaluated.
Defined.

(** ** C10: a key that is not available *)

(** The guard of the piano's click handler, whatever its props are. *)
Lemma handleKeyPress_off disabled availableNotes onNoteClick note w :
  disabled = true \/ note ∉ availableNotes ->
  handleKeyPress disabled availableNotes onNoteClick note w = w.
Proof.
  intros Hoff. unfold handleKeyPress.
  destruct Hoff as [->|Hnot]; [done|].
  rewrite (bool_decide_false _ Hnot). by rewrite orb_true_r.
Qed.

(** C10: a click on a key of the piano the game screen shows, while the
    game is not awaiting a guess or on a pitch that is not usable in the
    round, changes nothing: no tone, no guess, no pressed key, no timer. *)
Theorem unavailable_key_is_noop note w :
  status (game w) <> Status.guessing \/ note ∉ availableNotes (game w) ->
  pianoKeyClick note w = w.
Proof.
  intros Hoff. apply handleKeyPress_off.
  destruct Hoff as [Hst|Hnot]; [left|by right].
  by rewrite bool_decide_false.
Qed.

Lemma unavailable_key_is_noop_witness :
  pianoKeyClick D (firstQuestion "easy") = firstQuestion "easy".
Proof.
  apply (unavailable_key_is_noop D (firstQuestion "easy")).
  right.
  assert (availableNotes (game (firstQuestion "easy")) = [C; E; G]) as ->
    by evaluated.
  intros Hin. apply list_elem_of_In in Hin. cbn in Hin.
  intuition discriminate.
Defined.

(** * Further properties of the game *)

(** ** The score and the guesses *)

(** X1: the score the game screen holds is the number of guesses judged
    correct so far, although the verdict timeout works on the score its
    closure captured; it never exceeds the number of guesses made. *)
Theorem score_counts_correct_guesses difficulty arduinoPort w :
  reachable difficulty arduinoPort w ->
  score (game w) = correctCount (trace w)
  /\ correctCount (trace w) <= guessesMade (trace w).
Proof.
  intros Hw.
  destruct (inv_scoring _ _ (reachable_Inv _ _ _ Hw)) as (_ & Hs & _).
  split; [done|apply correctCount_le].
Qed.

Lemma score_counts_correct_guesses_witness :
  score (game lastQuestion) = correctCount (trace lastQuestion)
  /\ correctCount (trace lastQuestion) <= guessesMade (trace lastQuestion).
Proof.
  apply (score_counts_correct_guesses "easy" false lastQuestion).
  apply reachable_lastQuestion.
Defined.



(** ** The note to guess *)

(** X3: while the game awaits a guess or shows its feedback, there is a
    note to guess, and it is one of the pitches the piano offers, which
    are the usable pitches of the profile: [selectRandomNote] never
    indexes outside the array, whatever [Math.random] returns. *)
Theorem target_is_usable difficulty arduinoPort w :
  reachable difficulty arduinoPort w ->
  status (game w) = Status.guessing \/ status (game w) = Status.feedback ->
  exists n, currentNote (game w) = Some n
            /\ n ∈ availableNotes (game w)
            /\ availableNotes (game w) = getAvailableNotes difficulty.
Proof.
  intros Hw Hst.
  destruct (reachable_targetOk _ _ _ Hw) as (_ & Hav & Hcur & _).
  destruct (Hcur Hst) as (n & Hn & Hin).
  assert (Ha : availableNotes (game w) = getAvailableNotes difficulty).
  { apply Hav. destruct Hst as [-> | ->]; done. }
  exists n. by rewrite Ha.
Qed.

Lemma target_is_usable_witness :
  exists n, currentNote (game (firstQuestion "hard")) = Some n
            /\ n ∈ availableNotes (game (firstQuestion "hard"))
            /\ availableNotes (game (firstQuestion "hard"))
               = getAvailableNotes "hard".
Proof.
  apply (target_is_usable "hard" false (firstQuestion "hard")).
  - apply reachable_firstQuestion.
  - left. evaluated.
Defined.

(** X4: while the game awaits a guess, replaying the note sounds the note
    to guess for one second and changes nothing else of the round: no
    guess is recorded, and phase, score and round stay. *)
Theorem replay_sounds_the_target difficulty arduinoPort w :
  reachable difficulty arduinoPort w ->
  status (game w) = Status.guessing ->
  exists n ctx ctx',
    currentNote (game w) = Some n
    /\ audioContext (audioContextRef (game w)) = Some ctx
    /\ audioContext (audioContextRef (game (replayCurrentNote w)))
       = Some ctx'
    /\ Audio.destination ctx'
       = Audio.destination ctx ++ [sounding ctx (now (loop w)) n 1%Q]
    /\ trace (replayCurrentNote w) = trace w
    /\ status (game (replayCurrentNote w)) = status (game w)
    /\ score (game (replayCurrentNote w)) = score (game w)
    /\ round (game (replayCurrentNote w)) = round (game w).
Proof.
  intros Hw Hst.
  destruct (target_is_usable _ _ _ Hw (or_introl Hst)) as (n & Hn & _).
  destruct (audioContext (audioContextRef (game w))) as [ctx|] eqn:Hctx.
  - destruct (replayCurrentNote_spec w n ctx Hn Hst Hctx)
      as ((ctx' & ? & ?) & ? & ? & ? & ? & _).
    by exists n, ctx, ctx'.
  - destruct (inv_audio _ _ (reachable_Inv _ _ _ Hw) Hctx) as [? _].
    congruence.
Qed.

Lemma replay_sounds_the_target_witness :
  exists n ctx ctx',
    currentNote (game (firstQuestion "easy")) = Some n
    /\ audioContext (audioContextRef (game (firstQuestion "easy"))) = Some ctx
    /\ audioContext
         (audioContextRef (game (replayCurrentNote (firstQuestion "easy"))))
       = Some ctx'
    /\ Audio.destination ctx'
       = Audio.destination ctx
         ++ [sounding ctx (now (loop (firstQuestion "easy"))) n 1%Q]
    /\ trace (replayCurrentNote (firstQuestion "easy"))
       = trace (firstQuestion "easy")
    /\ status (game (replayCurrentNote (firstQuestion "easy")))
       = status (game (firstQuestion "easy"))
    /\ score (game (replayCurrentNote (firstQuestion "easy")))
       = score (game (firstQuestion "easy"))
    /\ round (game (replayCurrentNote (firstQuestion "easy")))
       = round (game (firstQuestion "easy")).
Proof.
  apply (replay_sounds_the_target "easy" false (firstQuestion "easy")).
  - apply reachable_firstQuestion.
  - evaluated.
Defined.

(** ** A click that counts *)

(** What an accepted click on key [note] makes of world [w]. *)
Definition clicked (note : Note) (w w' : World) : Prop :=
  let c := bool_decide (Some note = currentNote (game w)) in
  trace w' = Guessed c :: trace w
  /\ status (game w') = Status.feedback
  /\ score (game w') = score (game w) + (if c then 1 else 0)
  /\ round (game w') = round (game w)
  /\ (exists ctx ctx',
        audioContext (audioContextRef (game w)) = Some ctx
        /\ audioContext (audioContextRef (game w')) = Some ctx'
        /\ Audio.destination ctx'
           = Audio.destination ctx ++ [sounding ctx (now (loop w)) note 0.3%Q])
  /\ note ∈ pressedKeys (piano w')
  /\ (exists t, t ∈ pending w' /\ callback t = CbReleaseKey note
                /\ due t = (now (loop w) + 200)%Z)
  /\ (exists t, t ∈ pending w'
                /\ callback t = CbFeedbackDone c (round (game w))
                                  (score (game w))
                /\ due t = (now (loop w) + 2500)%Z).

(** X5: a click on a key the piano offers, while the game awaits a guess,
    is one guess: the key shows pressed and is set to be released 200 ms
    later, its tone sounds for 0.3 s, the guess is judged against the note
    to guess, the score goes up by one exactly when it is that note, the
    feedback shows, and the verdict is set for 2.5 s later with the round
    and the score as they were before the guess. *)
Theorem click_is_one_guess difficulty arduinoPort note w :
  reachable difficulty arduinoPort w -> mounted w = true ->
  status (game w) = Status.guessing -> note ∈ availableNotes (game w) ->
  clicked note w (pianoKeyClick note w).
Proof.
  intros Hw Hm Hst Hin.
  destruct (audioContext (audioContextRef (game w))) as [ctx|] eqn:Hctx.
  - destruct (pianoKeyClick_spec note w ctx Hm Hst Hin Hctx)
      as (? & ? & ? & ? & (ctx' & ? & ?) & ? & ? & ?).
    unfold clicked. split_and!; try done. by exists ctx, ctx'.
  - destruct (inv_audio _ _ (reachable_Inv _ _ _ Hw) Hctx) as [? _].
    congruence.
Qed.

Lemma click_is_one_guess_witness :
  clicked G (firstQuestion "easy") (pianoKeyClick G (firstQuestion "easy")).
Proof.
  apply (click_is_one_guess "easy" false G (firstQuestion "easy")).
  - apply reachable_firstQuestion.
  - evaluated.
  - evaluated.
  - listed.
Defined.

(** ** A playback under way *)

(** X6: at any time, running, complete or cancelled, the notes a playback
    has started are the first [index] notes of its passage, each at its
    place on the 700 ms grid and for 0.6 s; the first note is started by
    the call that creates the playback. *)
Theorem playback_in_order difficulty arduinoPort w h p :
  reachable difficulty arduinoPort w ->
  players w !! h = Some p ->
  1 <= index p <= length (notes p)
  /\ exists t0 : Z, forall i n d t,
       SeqNote h i n d t ∈ trace w
       <-> i < index p /\ notes p !! i = Some n /\ d = 0.6%Q
           /\ t = (t0 + 700 * Z.of_nat i)%Z.
Proof.
  intros Hw Hp.
  destruct (inv_seq _ _ (reachable_Inv _ _ _ Hw)) as [Hseq _].
  destruct (Hseq h p Hp) as [t0 [Hnote Hall _ _ _ Hidx]].
  split; [done|]. exists t0. intros i n d t. split; [apply Hnote|].
  intros (Hi & Hn & -> & ->).
  destruct (Hall i Hi) as [n' Hn'].
  destruct (Hnote _ _ _ _ Hn') as (_ & Hi' & _).
  assert (n' = n) as -> by congruence. exact Hn'.
Qed.

Lemma playback_in_order_witness :
  1 <= 1 <= length triadSequence
  /\ exists t0 : Z, forall i n d t,
       SeqNote 1 i n d t ∈ trace twoReplays
       <-> i < 1 /\ triadSequence !! i = Some n /\ d = 0.6%Q
           /\ t = (t0 + 700 * Z.of_nat i)%Z.
Proof.
  apply (playback_in_order "easy" false twoReplays 1
           {| notes := triadSequence; index := 1; timeoutId := Some 43 |}).
  - apply reachable_twoReplays.
  - evaluated.
Defined.

(** ** Leaving, and what stays behind *)

(** X7: of the timers the game screen and the audio module set,
    confirming the exit takes two kinds off the queue and no other: the
    mount timer, and the continuation of the playback whose handle is
    stored. A pending verdict, a pending start of the next round and the
    ended events of sources stay, and run after the game screen is gone.
    (The release timers of keys are the piano's own and are left aside.) *)
Theorem exit_removes_only difficulty arduinoPort w t :
  reachable difficulty arduinoPort w -> mounted w = true ->
  t ∈ pending w -> (forall note, callback t <> CbReleaseKey note) ->
  t ∈ pending (confirmExit w)
  \/ (tid t = mountTimer (game w) /\ callback t = CbInitializeGame)
  \/ (exists h, audioCleanupRef (game w) = Some h
                /\ handleOf (callback t) = Some h).
Proof.
  intros Hw Hm Hin _. destruct (reachable_Inv2 _ _ _ Hw) as [Hs Hmo _].
  by apply confirmExit_keeps.
Qed.

Lemma exit_removes_only_witness :
  {| tid := 43; due := 7800; callback := CbPlayNextNote 1 AskAgain |}
    ∈ pending (confirmExit twoReplays)
  \/ (43 = mountTimer (game twoReplays)
      /\ CbPlayNextNote 1 AskAgain = CbInitializeGame)
  \/ (exists h, audioCleanupRef (game twoReplays) = Some h
                /\ handleOf (CbPlayNextNote 1 AskAgain) = Some h).
Proof.
  apply (exit_removes_only "easy" false twoReplays
           {| tid := 43; due := 7800;
              callback := CbPlayNextNote 1 AskAgain |}).
  - apply reachable_twoReplays.
  - evaluated.
  - listed.
  - intros note. discriminate.
Defined.

(** X8: when the exit is confirmed before the first round has been primed,
    the mount effect's cleanup clears the mount timer, and no round is
    ever primed afterwards. *)
Theorem early_exit_never_primes difficulty arduinoPort w es w' :
  reachable difficulty arduinoPort w -> mounted w = true ->
  primings (trace w) = 0 ->
  steps difficulty arduinoPort (confirmExit w) es w' ->
  primings (trace w') = 0.
Proof.
  intros Hw Hm Hz Hsteps.
  destruct (reachable_Inv2 _ _ _ Hw) as [_ _ Hf].
  destruct (confirmExit_early w (inv_tokens _ _ (reachable_Inv _ _ _ Hw))
              Hf Hm Hz) as [Hover Hz'].
  destruct (acts_over _ _ _ (steps_acts _ _ _ _ _ Hsteps) Hover)
    as (_ & Hp & _).
  congruence.
Qed.

Lemma early_exit_never_primes_witness :
  primings
    (trace (runTimers "easy" 80 half (confirmExit (mountGameScreen 0)))) = 0.
Proof.
  destruct (runTimers_steps "easy" false 80 half
              (confirmExit (mountGameScreen 0))
              (proj1 half_unit) (proj2 half_unit)) as [es Hes].
  apply (early_exit_never_primes "easy" false (mountGameScreen 0) es).
  - apply reachable_mount.
  - reflexivity.
  - reflexivity.
  - exact Hes.
Defined.

(** ** The registry and the audio context *)

(** X9: the registry of sounding sources holds no source twice, and every
    source in it has its ended event pending; so once the queue is empty
    the registry is empty too. *)
Theorem registry_awaits_ends difficulty arduinoPort w :
  reachable difficulty arduinoPort w ->
  NoDup (activeAudioSources w)
  /\ (forall o, o ∈ activeAudioSources w ->
        exists t, t ∈ pending w /\ callback t = CbOnEnded o)
  /\ (pending w = [] -> activeAudioSources w = []).
Proof.
  intros Hw. destruct (reachable_registryOk _ _ _ Hw) as (Hnd & Hev & _).
  split_and!; [done..|].
  intros Hnil. destruct (activeAudioSources w) as [|o srcs]; [done|].
  destruct (Hev o) as (t & Hin & _); [by left|].
  unfold pending in *. rewrite Hnil in Hin. by apply elem_of_nil in Hin.
Qed.

Lemma registry_awaits_ends_witness :
  NoDup (activeAudioSources twoReplays)
  /\ (forall o, o ∈ activeAudioSources twoReplays ->
        exists t, t ∈ pending twoReplays /\ callback t = CbOnEnded o)
  /\ (pending twoReplays = [] -> activeAudioSources twoReplays = []).
Proof.
  apply (registry_awaits_ends "easy" false twoReplays).
  apply reachable_twoReplays.
Defined.

(** X10: when the ended event of a source runs, exactly that source
    leaves the registry; for a source that is not registered any more,
    as after [stopAllAudio], the event changes nothing. *)
Theorem ended_removes_the_source difficulty arduinoPort w o :
  reachable difficulty arduinoPort w ->
  (forall o', o' ∈ activeAudioSources (onended o w)
              <-> o' ∈ activeAudioSources w /\ o' <> o)
  /\ (o ∉ activeAudioSources w ->
      activeAudioSources (onended o w) = activeAudioSources w)
  /\ activeAudioSources (onended o (stopAllAudio w)) = [].
Proof.
  intros Hw. destruct (reachable_registryOk _ _ _ Hw) as (Hnd & _).
  split_and!.
  - intros o'. by apply removeFirst_elem.
  - apply removeFirst_absent.
  - reflexivity.
Qed.

Lemma ended_removes_the_source_witness :
  (forall o', o' ∈ activeAudioSources (onended 30 twoReplays)
              <-> o' ∈ activeAudioSources twoReplays /\ o' <> 30)
  /\ (30 ∉ activeAudioSources twoReplays ->
      activeAudioSources (onended 30 twoReplays)
      = activeAudioSources twoReplays)
  /\ activeAudioSources (onended 30 (stopAllAudio twoReplays)) = [].
Proof.
  apply (ended_removes_the_source "easy" false twoReplays 30).
  apply reachable_twoReplays.
Defined.

(** X11: the audio context, once made, stays: whatever happens, the
    context is never dropped or made anew (its time origin stays), and the
    tones connected to it stay connected, later ones added after them. *)
Theorem audio_context_stays difficulty arduinoPort w es w' ctx :
  steps difficulty arduinoPort w es w' ->
  audioContext (audioContextRef (game w)) = Some ctx ->
  exists ctx',
    audioContext (audioContextRef (game w')) = Some ctx'
    /\ Audio.timeOrigin ctx' = Audio.timeOrigin ctx
    /\ Audio.destination ctx `prefix_of` Audio.destination ctx'
    /\ Audio.nextNodeId ctx <= Audio.nextNodeId ctx'.
Proof.
  intros Hsteps Hctx.
  exact (acts_ctxGrows _ _ _ (steps_acts _ _ _ _ _ Hsteps) ctx Hctx).
Qed.

Lemma audio_context_stays_witness :
  exists ctx,
    audioContext (audioContextRef (game (firstNote "easy"))) = Some ctx
    /\ exists ctx',
         audioContext
           (audioContextRef (game (runTimers "easy" 80 half (firstNote "easy"))))
         = Some ctx'
         /\ Audio.timeOrigin ctx' = Audio.timeOrigin ctx
         /\ Audio.destination ctx `prefix_of` Audio.destination ctx'
         /\ Audio.nextNodeId ctx <= Audio.nextNodeId ctx'.
Proof.
  destruct (runTimers_steps "easy" false 80 half (firstNote "easy")
              (proj1 half_unit) (proj2 half_unit)) as [es Hes].
  eexists. split; [evaluated|].
  apply (audio_context_stays "easy" false (firstNote "easy") es).
  - exact Hes.
  - evaluated.
Defined.

(** ** What each phase waits for *)



(** * ArduinoConnect: from the serial stream to device signals *)

Module ArduinoConnect.

Section Reader.

(** The text of the stream is a string of characters, one of them the
    line feed; [String.prototype.trim] and [parseInt] are taken as they
    come. *)
Context {Char Pin : Type} `{!EqDecision Char}.
Variable newline : Char.
Variable trim : list Char -> list Char.
Variable parseInt : list Char -> Pin.

(** [s.split('\n')]: the segments between line feeds, at least one. *)
Fixpoint split (s : list Char) : list (list Char) :=
  match s with
  | [] => [[]]
  | c :: s' =>
      if decide (c = newline) then [] :: split s'
      else match split s' with
           | l :: ls => (c :: l) :: ls
           | [] => [[c]]
           end
  end.

(** [buffer += text; lines = buffer.split('\n');
     buffer = lines.pop() || ''] : the complete lines, and the rest. *)
Definition takeLines (buffer text : list Char)
    : list (list Char) * list Char :=
  let lines := split (buffer ++ text) in
  (removelast lines, List.last lines []).

(** The body of [for (const line of lines)]: the pin dispatched for a
    line, if any. *)
Definition dispatch (line : list Char) : option Pin :=
  let trimmedLine := trim line in
  match trimmedLine with
  | [] => None
  | _ => Some (parseInt trimmedLine)
  end.

(** One turn of the loop of [startReading] on the text of a chunk: the
    signals dispatched, in order, and the buffer kept. *)
Definition readChunk (buffer text : list Char) : list Pin * list Char :=
  let '(lines, buffer') := takeLines buffer text in
  (omap dispatch lines, buffer').

(** The loop, on the texts of the chunks read until the stream is done. *)
Fixpoint startReading (buffer : list Char) (chunks : list (list Char))
    : list Pin * list Char :=
  match chunks with
  | [] => ([], buffer)
  | text :: chunks' =>
      let '(pins, buffer') := readChunk buffer text in
      let '(pins', buffer'') := startReading buffer' chunks' in
      (pins ++ pins', buffer'')
  end.

(** The complete lines of the whole stream, as the loop sees them. *)
Fixpoint linesRead (buffer : list Char) (chunks : list (list Char))
    : list (list Char) * list Char :=
  match chunks with
  | [] => ([], buffer)
  | text :: chunks' =>
      let '(lines, buffer') := takeLines buffer text in
      let '(lines', buffer'') := linesRead buffer' chunks' in
      (lines ++ lines', buffer'')
  end.

Lemma split_nonempty s : split s <> [].
Proof.
  destruct s as [|c s]; cbn; [done|].
  destruct (decide (c = newline)); [done|]. by destruct (split s).
Qed.

Lemma split_cons c s :
  split (c :: s)
  = if decide (c = newline) then [] :: split s
    else (c :: hd [] (split s)) :: tl (split s).
Proof.
  cbn. destruct (decide (c = newline)); [done|].
  pose proof (split_nonempty s). by destruct (split s).
Qed.

Lemma removelast_cons {X} (x : X) l :
  l <> [] -> removelast (x :: l) = x :: removelast l.
Proof. by destruct l. Qed.

Lemma pop_cons {X} (x d : X) l :
  l <> [] -> List.last (x :: l) d = List.last l d.
Proof. by destruct l. Qed.

Lemma pop_app {X} (d : X) l l' :
  l' <> [] -> List.last (l ++ l') d = List.last l' d.
Proof.
  intros Hne. induction l as [|x l IH]; [done|].
  rewrite <- app_comm_cons, pop_cons; [done|]. by destruct l.
Qed.

(** No segment of a split has a line feed in it. *)
Lemma split_no_newline s l : l ∈ split s -> newline ∉ l.
Proof.
  revert l. induction s as [|c s IH]; intros l.
  - cbn. intros ->%list_elem_of_singleton. apply not_elem_of_nil.
  - rewrite split_cons. pose proof (split_nonempty s) as Hne.
    destruct (decide (c = newline)) as [->|Hc].
    + intros [->|Hin]%elem_of_cons; [apply not_elem_of_nil|by apply IH].
    + destruct (split s) as [|l0 ls] eqn:E; [done|]. cbn.
      intros [->|Hin]%elem_of_cons.
      * apply not_elem_of_cons. split; [done|]. apply IH. by left.
      * apply IH. by right.
Qed.

(** Splitting a text without line feed gives the text. *)
Lemma split_line l : newline ∉ l -> split l = [l].
Proof.
  induction l as [|c l IH]; [done|].
  intros [Hc Hl]%not_elem_of_cons. rewrite split_cons, IH by done.
  by rewrite decide_False by done.
Qed.

(** The segments, put together again with line feeds between them. *)
Fixpoint join (ls : list (list Char)) : list Char :=
  match ls with
  | [] => []
  | [l] => l
  | l :: ls' => l ++ newline :: join ls'
  end.

Lemma join_cons l ls : ls <> [] -> join (l :: ls) = l ++ newline :: join ls.
Proof. by destruct ls. Qed.

Lemma join_split s : join (split s) = s.
Proof.
  induction s as [|c s IH]; [done|].
  rewrite split_cons. pose proof (split_nonempty s) as Hne.
  destruct (decide (c = newline)) as [->|Hc].
  - rewrite join_cons by done. by rewrite IH.
  - destruct (split s) as [|l0 ls] eqn:E; [done|]. cbn [hd tl].
    destruct ls as [|l1 ls]; cbn in *; by rewrite <- IH.
Qed.

(** The lines before the last segment, each with its line feed, and the
    last segment, are the text. *)
Lemma split_parts s :
  concat (fmap (fun l => l ++ [newline]) (removelast (split s)))
  ++ List.last (split s) [] = s.
Proof.
  induction s as [|c s IH]; [done|].
  rewrite split_cons. pose proof (split_nonempty s) as Hne.
  destruct (decide (c = newline)) as [->|Hc].
  - rewrite removelast_cons, pop_cons by done. cbn. by rewrite IH.
  - destruct (split s) as [|l0 ls] eqn:E; [done|]. cbn [hd tl].
    destruct ls as [|l1 ls].
    + cbn in *. by rewrite <- IH.
    + rewrite !removelast_cons, !pop_cons in * by done.
      cbn in *. by rewrite <- IH.
Qed.

(** Splitting a text that goes on: the lines complete so far stay, and
    the rest is split together with what follows. *)
Lemma split_snoc a b ls r :
  split a = ls ++ [r] -> split (a ++ b) = ls ++ split (r ++ b).
Proof.
  revert ls r. induction a as [|c a IH]; intros ls r.
  - cbn. destruct ls as [|l [|? ?]]; intros [= <-]. done.
  - change ((c :: a) ++ b) with (c :: (a ++ b)). rewrite !split_cons.
    destruct (decide (c = newline)) as [->|Hc].
    + destruct ls as [|l ls]; cbn.
      * intros [= <- Hs]. by destruct (split_nonempty a).
      * intros [= <- Hs]. by rewrite (IH ls r).
    + destruct (split a) as [|l0 t] eqn:E; [by destruct (split_nonempty a)|].
      cbn [hd tl]. destruct ls as [|l ls]; cbn [app].
      * intros [= <- ->]. rewrite (IH [] l0 eq_refl). cbn [app].
        change ((c :: l0) ++ b) with (c :: (l0 ++ b)).
        rewrite split_cons. by rewrite decide_False by done.
      * intros [= <- ->]. by rewrite (IH (l0 :: ls) r eq_refl).
Qed.

Lemma split_pop s :
  split s = removelast (split s) ++ [List.last (split s) []].
Proof. apply app_removelast_last, split_nonempty. Qed.

Lemma split_app a b :
  split (a ++ b)
  = removelast (split a) ++ split (List.last (split a) [] ++ b).
Proof. apply split_snoc, split_pop. Qed.

Lemma takeLines_app buffer a b :
  takeLines buffer (a ++ b)
  = ((takeLines buffer a).1 ++ (takeLines (takeLines buffer a).2 b).1,
     (takeLines (takeLines buffer a).2 b).2).
Proof.
  unfold takeLines. cbn [fst snd]. rewrite app_assoc, split_app.
  pose proof (split_nonempty
                (List.last (split (buffer ++ a)) [] ++ b)) as Hne.
  by rewrite removelast_app, pop_app by done.
Qed.

(** The buffer holds no line feed, and taking lines with no new text
    leaves it as it is. *)
Lemma takeLines_idle buffer :
  newline ∉ buffer -> takeLines buffer [] = ([], buffer).
Proof.
  intros Hb. unfold takeLines. rewrite app_nil_r. by rewrite split_line.
Qed.

Lemma takeLines_buffer buffer text :
  newline ∉ (takeLines buffer text).2.
Proof.
  unfold takeLines. cbn [snd]. apply (split_no_newline (buffer ++ text)).
  rewrite (split_pop (buffer ++ text)) at 2.
  apply elem_of_app. right. by apply list_elem_of_singleton.
Qed.

Lemma linesRead_concat buffer chunks :
  newline ∉ buffer ->
  linesRead buffer chunks = takeLines buffer (concat chunks).
Proof.
  revert buffer. induction chunks as [|text chunks IH]; intros buffer Hb.
  - cbn. by rewrite takeLines_idle.
  - cbn [linesRead concat]. rewrite takeLines_app.
    destruct (takeLines buffer text) as [lines buffer'] eqn:E.
    cbn [fst snd]. rewrite IH.
    + by destruct (takeLines buffer' (concat chunks)).
    + pose proof (takeLines_buffer buffer text) as Hb'.
      by rewrite E in Hb'.
Qed.

Lemma startReading_lines buffer chunks :
  startReading buffer chunks
  = (omap dispatch (linesRead buffer chunks).1, (linesRead buffer chunks).2).
Proof.
  revert buffer. induction chunks as [|text chunks IH]; intros buffer.
  - done.
  - cbn [startReading linesRead]. unfold readChunk.
    destruct (takeLines buffer text) as [lines buffer'].
    rewrite IH. destruct (linesRead buffer' chunks) as [lines' buffer''].
    cbn [fst snd]. by rewrite omap_app.
Qed.

(** X13: the signals dispatched and the buffer kept depend on the text
    that came in, not on how the serial port cut it into chunks. *)
Theorem chunking_does_not_matter chunks1 chunks2 :
  concat chunks1 = concat chunks2 ->
  startReading [] chunks1 = startReading [] chunks2.
Proof.
  intros Heq. rewrite !startReading_lines.
  rewrite !linesRead_concat by apply not_elem_of_nil. by rewrite Heq.
Qed.

(** X14: nothing of the stream is lost or made up: the complete lines the
    loop has seen, each with its line feed, followed by the buffer, are the
    text read so far; neither a line nor the buffer has a line feed in it;
    and the signals dispatched are those of the lines that are not blank,
    in the order of the lines. *)
Theorem stream_is_lines_and_buffer chunks :
  concat (fmap (fun l => l ++ [newline]) (fst (linesRead [] chunks)))
  ++ snd (linesRead [] chunks) = concat chunks
  /\ Forall (fun l => newline ∉ l) (fst (linesRead [] chunks))
  /\ (newline ∉ snd (linesRead [] chunks))
  /\ startReading [] chunks
     = (omap dispatch (fst (linesRead [] chunks)), snd (linesRead [] chunks)).
Proof.
  rewrite startReading_lines.
  rewrite linesRead_concat by apply not_elem_of_nil.
  split_and!; [| |apply takeLines_buffer|done].
  - unfold takeLines. cbn [fst snd app]. apply split_parts.
  - unfold takeLines. cbn [fst snd app].
    apply Forall_forall. intros l Hin.
    apply (split_no_newline (concat chunks)).
    rewrite (split_pop (concat chunks)). apply elem_of_app. by left.
Qed.

End Reader.

(** Two ways the port may cut the text "2", line feed, "5", line feed. *)
Lemma chunking_does_not_matter_witness :
  startReading 10 id id [] [[50; 10; 53]; [10]]
  = startReading 10 id id [] [[50]; [10; 53; 10]].
Proof.
  apply (chunking_does_not_matter 10 id id
           [[50; 10; 53]; [10]] [[50]; [10; 53; 10]]).
  reflexivity.
Defined.

End ArduinoConnect.
